(** * film-roll-tool: the yield calculator, the thickness statistics and the
      two keyed tables of [app.py], embedded in Rocq.

    Python floats are IEEE 754 binary64 values.  They are modelled with the
    Standard Library's executable specification [SpecFloat] at precision 53
    and maximal exponent 1024, so every arithmetic step below rounds exactly
    as the interpreter does, and can be evaluated. *)

From Stdlib Require Import ZArith Bool List String Lia.
From Stdlib Require Import QArith Qround Qpower Qminmax Lqa.
From Stdlib Require Import SpecFloat DecimalString.
From Stdlib Require DecimalPos DecimalZ.
Import ListNotations.

Local Open Scope Z_scope.

(** ** Binary64 arithmetic *)

Module F64.

Definition prec : Z := 53.
Definition emax : Z := 1024.

Definition add := SFadd prec emax.
Definition sub := SFsub prec emax.
Definition mul := SFmul prec emax.
Definition div := SFdiv prec emax.
Definition compare := SFcompare.
Definition valid := valid_binary prec emax.

(** [float(n)] for a Python int that fits: the nearest binary64 value. *)
Definition of_Z (n : Z) : spec_float := binary_normalize prec emax n 0 false.

(** A decimal literal with [k >= 1] digits after the point, [n / 10^k],
    rounded once, as the Python parser does. *)
Definition dec (n : Z) (k : nat) : spec_float :=
  match n with
  | Z0 => S754_zero false
  | Zpos p => div (S754_finite false p 0) (S754_finite false (Pos.pow 10 (Pos.of_nat k)) 0)
  | Zneg p => div (S754_finite true p 0) (S754_finite false (Pos.pow 10 (Pos.of_nat k)) 0)
  end.

(** [math.pi], 0x1.921fb54442d18p+1 *)
Definition pi : spec_float := S754_finite false 7074237752028440 (-51).

Definition is_nan (x : spec_float) : bool :=
  match x with S754_nan => true | _ => false end.

Definition is_inf (x : spec_float) : bool :=
  match x with S754_infinity _ => true | _ => false end.

Definition is_zero (x : spec_float) : bool :=
  match x with S754_zero _ => true | _ => false end.

Definition is_finite_nonzero (x : spec_float) : bool :=
  match x with S754_finite _ _ _ => true | _ => false end.

(** Truncation toward zero of a finite value: what [int(x)] returns. *)
Definition trunc (x : spec_float) : Z :=
  match x with
  | S754_finite s m e =>
      let a := match e with
               | Zneg p => Z.shiftr (Zpos m) (Zpos p)
               | _ => Z.shiftl (Zpos m) e
               end in
      if s then - a else a
  | _ => 0
  end.

End F64.

(** ** Python numbers and the exceptions of their arithmetic *)

Inductive exn := ZeroDivisionError | OverflowError | ValueError | KeyError.

Inductive res (A : Type) :=
| Ok (a : A)
| Raise (e : exn).
Arguments Ok {A} a.
Arguments Raise {A} e.

Definition bind {A B} (m : res A) (k : A -> res B) : res B :=
  match m with
  | Ok a => k a
  | Raise e => Raise e
  end.

Notation "x <- m ;; k" := (bind m (fun x => k))
  (at level 61, m at next level, right associativity).

(** [try: body  except Exception: return d] *)
Definition try_except {A} (body : res A) (d : A) : A :=
  match body with
  | Ok a => a
  | Raise _ => d
  end.

(** A numeric argument is a Python [int] or a Python [float]. *)
Inductive num :=
| Int (n : Z)
| Float (f : spec_float).

(** Exact comparison of an int with a float, as [float.__eq__/__le__] do
    against an [int]; [None] when the float is a NaN. *)
Definition compare_Z_float (a : Z) (y : spec_float) : option comparison :=
  match y with
  | S754_nan => None
  | S754_infinity s => Some (if s then Gt else Lt)
  | S754_zero _ => Some (a ?= 0)
  | S754_finite s m e =>
      let sm := if s then Zneg m else Zpos m in
      Some match e with
           | Zneg p => (a * Z.pow_pos 2 p ?= sm)
           | _ => (a ?= sm * 2 ^ e)
           end
  end.

Definition num_compare (x y : num) : option comparison :=
  match x, y with
  | Int a, Int b => Some (a ?= b)
  | Float a, Float b => F64.compare a b
  | Int a, Float b => compare_Z_float a b
  | Float a, Int b => option_map CompOpp (compare_Z_float b a)
  end.

(** [x <= y] *)
Definition num_le (x y : num) : bool :=
  match num_compare x y with
  | Some (Lt | Eq) => true
  | _ => false
  end.

(** [x > y] *)
Definition num_gt (x y : num) : bool :=
  match num_compare x y with
  | Some Gt => true
  | _ => false
  end.

(** [float(n)]: [OverflowError] when the int is too large. *)
Definition int_to_float (n : Z) : res spec_float :=
  let f := F64.of_Z n in
  if F64.is_inf f then Raise OverflowError else Ok f.

(** [a / b] on two floats. *)
Definition float_div (a b : spec_float) : res spec_float :=
  if F64.is_zero b then Raise ZeroDivisionError else Ok (F64.div a b).

(** [a / b] on two ints: the quotient rounded once. *)
Definition int_true_divide (a b : Z) : res spec_float :=
  match a, b with
  | _, Z0 => Raise ZeroDivisionError
  | Z0, _ => Ok (S754_zero (b <? 0))
  | _, _ =>
      let q := F64.div (S754_finite (a <? 0) (Z.to_pos (Z.abs a)) 0)
                       (S754_finite (b <? 0) (Z.to_pos (Z.abs b)) 0) in
      if F64.is_inf q then Raise OverflowError else Ok q
  end.

(** [x / y], true division: the result is always a float. *)
Definition truediv (x y : num) : res spec_float :=
  match x, y with
  | Int a, Int b => int_true_divide a b
  | Float a, Float b => float_div a b
  | Float a, Int b => fb <- int_to_float b ;; float_div a fb
  | Int a, Float b => fa <- int_to_float a ;; float_div fa b
  end.

(** [x ** 2] on a float.  The interpreter calls the platform [pow] and raises
    [OverflowError] when a finite base gives an infinite result; [pow(x, 2)]
    is taken to be the correctly rounded square. *)
Definition pow2 (x : spec_float) : res spec_float :=
  let r := F64.mul x x in
  if F64.is_finite_nonzero x && F64.is_inf r then Raise OverflowError else Ok r.

(** [n * y] with [n] an int and [y] a float. *)
Definition int_mul_float (n : Z) (y : spec_float) : res spec_float :=
  fn <- int_to_float n ;; Ok (F64.mul fn y).

(** [int(x)] on a float. *)
Definition float_to_int (x : spec_float) : res Z :=
  match x with
  | S754_nan => Raise ValueError
  | S754_infinity _ => Raise OverflowError
  | _ => Ok (F64.trunc x)
  end.

(** [int(x)] *)
Definition py_int (x : num) : res Z :=
  match x with
  | Int n => Ok n
  | Float f => float_to_int f
  end.

(** ** The yield calculator, [calc_labels_per_roll] *)

(** The body of the [try] block. *)
Definition calc_body (thickness_mm roll_diam_cm core_diam_cm
                      mark_set_cm labels_per_set : num) : res Z :=
  roll_m <- truediv roll_diam_cm (Int 100) ;;
  roll_sq <- pow2 roll_m ;;
  core_m <- truediv core_diam_cm (Int 100) ;;
  core_sq <- pow2 core_m ;;
  thickness_m <- truediv thickness_mm (Int 1000) ;;
  four_t <- int_mul_float 4 thickness_m ;;
  quot <- float_div (F64.sub roll_sq core_sq) four_t ;;
  let film_length_m := F64.mul F64.pi quot in
  mark_m <- truediv mark_set_cm (Int 100) ;;
  sets <- float_div film_length_m mark_m ;;
  int_sets <- float_to_int sets ;;
  int_lps <- py_int labels_per_set ;;
  let labels := int_sets * int_lps in
  Ok labels.

(** [x is None or x <= 0] *)
Definition none_or_le0 (x : option num) : bool :=
  match x with
  | None => true
  | Some v => num_le v (Int 0)
  end.

Definition calc_labels_per_roll (thickness_mm roll_diam_cm core_diam_cm
                                 mark_set_cm labels_per_set : option num) : Z :=
  if none_or_le0 thickness_mm || none_or_le0 roll_diam_cm ||
     none_or_le0 core_diam_cm || none_or_le0 mark_set_cm ||
     none_or_le0 labels_per_set
  then 0
  else
    match thickness_mm, roll_diam_cm, core_diam_cm, mark_set_cm, labels_per_set with
    | Some t, Some r, Some c, Some m, Some l =>
        if num_le r c then 0
        else try_except (calc_body t r c m l) 0
    | _, _, _, _, _ => 0
    end.


(** Whether a call ends in the [except] branch. *)
Definition takes_except (thickness_mm roll_diam_cm core_diam_cm
                         mark_set_cm labels_per_set : option num) : bool :=
  match thickness_mm, roll_diam_cm, core_diam_cm, mark_set_cm, labels_per_set with
  | Some t, Some r, Some c, Some m, Some l =>
      negb (num_le t (Int 0) || num_le r (Int 0) || num_le c (Int 0) ||
            num_le m (Int 0) || num_le l (Int 0))
      && negb (num_le r c)
      && match calc_body t r c m l with Ok _ => false | Raise _ => true end
  | _, _, _, _, _ => false
  end.

(** ** Thickness statistics (tab 2) *)

(** [sum(xs)] on floats: the builtin adds from the left, starting from the
    int 0, which the first addition converts to [0.0].  (CPython 3.12 and
    later compensate the rounding errors of a float sum; nothing below
    depends on the last bit of a sum of several terms.) *)
Definition py_sum (xs : list spec_float) : spec_float :=
  fold_left F64.add xs (F64.of_Z 0).

Section Stats.

(** [statistics.stdev], the sample standard deviation of the Python standard
    library. *)
Variable stdev : list spec_float -> spec_float.

(** The statistics block: [valid_vals], [avg], [std]. *)
Definition compute_stats (inputs : list spec_float) : res (spec_float * spec_float) :=
  let valid_vals := filter (fun v => num_gt (Float v) (Int 0)) inputs in
  match valid_vals with
  | _ :: _ =>
      avg <- truediv (Float (py_sum valid_vals)) (Int (Z.of_nat (List.length valid_vals))) ;;
      let std := if (1 <? Z.of_nat (List.length valid_vals))
                 then stdev valid_vals
                 else F64.of_Z 0 in
      Ok (avg, std)
  | [] => Ok (F64.of_Z 0, F64.of_Z 0)
  end.

End Stats.

(** ** Tables *)

(** A table cell that holds a label: a string, an integer (what a CSV reader
    makes of a label written in digits) or a missing value. *)
Inductive cell :=
| Str (s : string)
| Num (n : Z)
| NaN.

Definition cell_eqb (a b : cell) : bool :=
  match a, b with
  | Str x, Str y => String.eqb x y
  | Num x, Num y => Z.eqb x y
  | NaN, NaN => true
  | _, _ => false
  end.

(** [.astype(str)] on one cell *)
Definition astype_str (c : cell) : string :=
  match c with
  | Str s => s
  | Num n => NilZero.string_of_int (Z.to_int n)
  | NaN => "nan"%string
  end.

(** [pd.isna] *)
Definition isna (c : cell) : bool :=
  match c with NaN => true | _ => false end.

Section Keyed.

(** Rows of a table whose column 품번 (part number) is read by [pumbun]. *)
Context {row : Type} (pumbun : row -> cell).

(** The mask [df["품번"].astype(str) == str(selected)] on one row. *)
Definition matches (selected : string) (r : row) : bool :=
  String.eqb (astype_str (pumbun r)) selected.

(** [df[df["품번"].astype(str) == str(selected)]] *)
Definition select_rows (selected : string) (df : list row) : list row :=
  filter (matches selected) df.

(** [df.loc[idx, :] = new_row] with [idx] the index of the rows of the mask.
    The dict has one entry per column of the table; the assignment is read as
    pandas matching the entries with the columns by label, so that every
    selected row takes the values of the dict and no other row changes. *)
Definition loc_assign (selected : string) (new_row : row) (df : list row) : list row :=
  map (fun r => if matches selected r then new_row else r) df.

(** The two branches of a save: replace where the part number is, or append
    with [pd.concat([df, pd.DataFrame([new_row])], ignore_index=True)]. *)
Definition upsert (selected : string) (new_row : row) (df : list row) : list row :=
  match select_rows selected df with
  | _ :: _ => loc_assign selected new_row df
  | [] => df ++ [new_row]
  end.

End Keyed.

(** A row of film_config.csv: 품번, 품명, 필름두께_mm, 지관외경_cm,
    아이마크세트길이_cm, 세트당라벨수. *)
Record config_row := {
  cfg_pumbun : cell;
  cfg_pummyeong : cell;
  cfg_thickness_mm : num;
  cfg_core_diam_cm : num;
  cfg_mark_set_cm : num;
  cfg_labels_per_set : num
}.

(** A row of film_thickness.csv: 품번, 품명, 거래처, 측정1..측정9, 평균,
    표준편차. *)
Record thick_row := {
  th_pumbun : cell;
  th_pummyeong : cell;
  th_vendor : cell;
  th_measures : list spec_float;
  th_mean : spec_float;
  th_stdev : spec_float
}.

(** The session state and the two files behind it; [None] is a file that does
    not exist. *)
Record state := {
  config_df : list config_row;
  thick_df : list thick_row;
  config_file : option (list config_row);
  thickness_file : option (list thick_row)
}.

Definition load_config (file : option (list config_row)) : list config_row :=
  match file with
  | None => []
  | Some df => df
  end.

Definition load_thickness (file : option (list thick_row)) : list thick_row :=
  match file with
  | None => []
  | Some df => df
  end.


Definition save_thickness (df : list thick_row) (st : state) : state :=
  {| config_df := config_df st; thick_df := df;
     config_file := config_file st; thickness_file := Some df |}.


(** [if not 거래처: 거래처 = base_vendor], when the part number has a row. *)
Definition vendor_to_store (vendor : string) (exist_t : list thick_row) : cell :=
  match exist_t with
  | r :: _ => if String.eqb vendor EmptyString then th_vendor r else Str vendor
  | [] => Str vendor
  end.

Section Thickness.

Variable stdev : list spec_float -> spec_float.

(** The save button of tab 2. *)
Definition save_thick (selected_pumbun2 : string) (pummyeong2 : cell)
    (vendor : string) (inputs : list spec_float) (st : state) : res state :=
  let exist_t := select_rows th_pumbun selected_pumbun2 (thick_df st) in
  stats <- compute_stats stdev inputs ;;
  let new_row_t := {| th_pumbun := Str selected_pumbun2;
                      th_pummyeong := pummyeong2;
                      th_vendor := vendor_to_store vendor exist_t;
                      th_measures := inputs;
                      th_mean := fst stats;
                      th_stdev := snd stats |} in
  Ok (save_thickness (upsert th_pumbun selected_pumbun2 new_row_t (thick_df st)) st).

End Thickness.

(** ** The reference catalog, [load_bom] *)

(** A sheet: its header and its rows, each row as long as the header. *)
Record frame := {
  columns : list string;
  rows : list (list cell)
}.

Definition col_pumbun : string := "품번"%string.
Definition col_pummyeong : string := "품명"%string.
Definition col_pummyeong_1 : string := "품명.1"%string.

Fixpoint index_of (c : string) (cols : list string) : option nat :=
  match cols with
  | [] => None
  | x :: rest => if String.eqb x c then Some 0%nat
                 else option_map S (index_of c rest)
  end.

(** [c in df.columns] *)
Definition has_column (c : string) (df : frame) : bool :=
  match index_of c (columns df) with Some _ => true | None => false end.

(** The cell of a row under a column; a short row reads as missing. *)
Definition cell_at (i : nat) (r : list cell) : cell := nth i r NaN.

(** [df[[c1, c2]]]: [KeyError] when a label is not a column. *)
Definition select2 (c1 c2 : string) (df : frame) : res frame :=
  match index_of c1 (columns df), index_of c2 (columns df) with
  | Some i, Some j =>
      Ok {| columns := [c1; c2];
            rows := map (fun r => [cell_at i r; cell_at j r]) (rows df) |}
  | _, _ => Raise KeyError
  end.

(** [df.dropna(subset=[c])] *)
Definition dropna (c : string) (df : frame) : res frame :=
  match index_of c (columns df) with
  | Some i => Ok {| columns := columns df;
                    rows := filter (fun r => negb (isna (cell_at i r))) (rows df) |}
  | None => Raise KeyError
  end.

(** Keep the first row of every value of column [i]. *)
Fixpoint keep_first (i : nat) (seen : list cell) (rs : list (list cell)) : list (list cell) :=
  match rs with
  | [] => []
  | r :: rest =>
      if existsb (cell_eqb (cell_at i r)) seen then keep_first i seen rest
      else r :: keep_first i (cell_at i r :: seen) rest
  end.

(** [df.drop_duplicates(subset=[c])] *)
Definition drop_duplicates (c : string) (df : frame) : res frame :=
  match index_of c (columns df) with
  | Some i => Ok {| columns := columns df; rows := keep_first i [] (rows df) |}
  | None => Raise KeyError
  end.

(** [df.rename(columns={old: new})] *)
Definition rename (old new : string) (df : frame) : frame :=
  {| columns := map (fun c => if String.eqb c old then new else c) (columns df);
     rows := rows df |}.

(** What is behind [BOM_FILE]: nothing, a file that [pd.read_excel] fails on,
    or a sheet. *)
Inductive bom_file :=
| Absent
| Unreadable (e : string)
| Sheet (df : frame).

(** The messages passed to [st.error]. *)
Inductive diagnostic :=
| FileNotFound
| ReadError (e : string)
| ColumnsNotFound.

Definition empty_bom : frame := {| columns := [col_pumbun; col_pummyeong]; rows := [] |}.

(** [load_bom]: the catalog or an exception, and the diagnostics shown. *)
Definition load_bom (file : bom_file) : res frame * list diagnostic :=
  match file with
  | Absent => (Ok empty_bom, [FileNotFound])
  | Unreadable e => (Ok empty_bom, [ReadError e])
  | Sheet df =>
      if negb (has_column col_pumbun df) || negb (has_column col_pummyeong_1 df)
      then (Ok empty_bom, [ColumnsNotFound])
      else
        (bom <- select2 col_pumbun col_pummyeong_1 df ;;
         bom <- dropna col_pumbun bom ;;
         bom <- drop_duplicates col_pumbun bom ;;
         let bom := rename col_pummyeong_1 col_pummyeong bom in
         select2 col_pumbun col_pummyeong bom,
         [])
  end.


(** * Exact values and correct rounding

    The value of a binary64 number as a rational, and the rounding that
    [SpecFloat] performs, stated on rationals. *)

Definition bpow (e : Z) : Q := Qpower 2 e.

Definition rne (y : Q) : Z :=
  let f := Qfloor y in
  match Qcompare (y - inject_Z f) (1 # 2) with
  | Lt => f
  | Eq => if Z.even f then f else f + 1
  | Gt => f + 1
  end.

(** Position of a scaled value with respect to a shifted mantissa and its
    round and sticky bits. *)
Definition inb (y : Q) (mrs : shr_record) : Prop :=
  let m := inject_Z (shr_m mrs) in
  match shr_r mrs, shr_s mrs with
  | false, false => (y == m)%Q
  | false, true => (m < y /\ y < m + (1#2))%Q
  | true, false => (y == m + (1#2))%Q
  | true, true => (m + (1#2) < y /\ y < m + 1)%Q
  end.

Definition fexp (e : Z) : Z := Z.max (e - 53) (-1074).

Definition inb_loc (y : Q) (m : Z) (l : location) : Prop := inb y (shr_record_of_loc m l).

Definition top : Q := bpow 1024.

Definition V (x : spec_float) : Q :=
  match x with
  | S754_zero _ => 0
  | S754_nan => 0
  | S754_infinity s => if s then - top else top
  | S754_finite s m e => inject_Z (cond_Zopp s (Z.pos m)) * bpow e
  end%Q.

Definition nonneg (x : spec_float) : Prop :=
  match x with
  | S754_zero false | S754_infinity false | S754_finite false _ _ => True
  | _ => False
  end.

Definition Rnd (x : Q) (D : Z) : Q :=
  Qmin (inject_Z (rne (x * bpow (- fexp D))) * bpow (fexp D)) top.

Definition mag_ok (x : Q) (D : Z) : Prop :=
  (x < bpow D)%Q /\ ((bpow (D - 1) <= x)%Q \/ fexp D = -1074).

Definition pack (n c : Z) : spec_float :=
  let '(mrs, e) := shr_fexp F64.prec F64.emax n c loc_Exact in
  match shr_m mrs with
  | Z0 => S754_zero false
  | Zpos m => if e <=? F64.emax - F64.prec then S754_finite false m e else S754_infinity false
  | Zneg _ => S754_nan
  end.

Definition rounds_to (x : Q) (r : spec_float) : Prop :=
  nonneg r /\ F64.valid r = true /\ exists D, mag_ok x D /\ (V r == Rnd x D)%Q.

(** zero or a nonzero finite value *)
Definition fin (x : spec_float) : Prop :=
  match x with S754_zero _ | S754_finite _ _ _ => True | _ => False end.

(** Values ordered as the interpreter orders them: the rationals between the
    two infinities. *)
Inductive ext := NegInf | Fin (q : Q) | PosInf.

Definition ext_compare (a b : ext) : comparison :=
  match a, b with
  | NegInf, NegInf => Eq
  | NegInf, _ => Lt
  | _, NegInf => Gt
  | PosInf, PosInf => Eq
  | PosInf, _ => Gt
  | _, PosInf => Lt
  | Fin x, Fin y => Qcompare x y
  end.

Definition float_ext (f : spec_float) : option ext :=
  match f with
  | S754_nan => None
  | S754_infinity s => Some (if s then NegInf else PosInf)
  | _ => Some (Fin (V f))
  end.

(** ** Orders, ranges and the specification's wording *)

Definition num_ext (x : num) : option ext :=
  match x with
  | Int n => Some (Fin (inject_Z n))
  | Float f => float_ext f
  end.

Definition wf_num (x : num) : bool :=
  match x with
  | Int _ => true
  | Float f => F64.valid f
  end.

(** A nonnegative binary64 value, possibly infinite, not a NaN. *)
Definition good (r : spec_float) : Prop := nonneg r /\ F64.valid r = true.

Definition ext_le (a b : ext) : Prop :=
  match a, b with
  | NegInf, _ => True
  | _, PosInf => True
  | Fin x, Fin y => (x <= y)%Q
  | _, _ => False
  end.

(** [sets] as the [try] block computes it from the two diameters in metres
    squared, the divisor [4 * thickness_m] and [mark_m]. *)
Definition sets_of (a cs ft mm : spec_float) : spec_float :=
  F64.div (F64.mul F64.pi (F64.div (F64.sub (F64.mul a a) cs) ft)) mm.








(** Inputs used as instances: the defaults of the form and a diameter of the
    usage hint. *)
Definition ex_thickness : num := Float (F64.dec 135 3).
Definition ex_roll : num := Float (F64.dec 299 1).
Definition ex_core : num := Float (F64.dec 90 1).
Definition ex_mark : num := Float (F64.dec 1145 2).
Definition ex_lps : num := Int 5.
(** 1e200, and the smallest positive float 5e-324 *)
Definition ex_huge : num := Float (F64.of_Z (10 ^ 200)).
Definition ex_tiny : num := Float (S754_finite false 1 (-1074)).

(** [x <= 0 or x is None] fails for the five, and [roll <= core] fails. *)
Definition guards_pass (t r c m l : num) : bool :=
  negb (num_le t (Int 0)) && negb (num_le r (Int 0)) && negb (num_le c (Int 0)) &&
  negb (num_le m (Int 0)) && negb (num_le l (Int 0)) && negb (num_le r c).

(** The bounds of the ordinary range: 2.0 ** -100 and 2.0 ** 100. *)
Definition range_lo : spec_float := S754_finite false 4503599627370496 (-152).
Definition range_hi : spec_float := S754_finite false 4503599627370496 48.

(** [2.0 ** -100 <= x <= 2.0 ** 100] *)
Definition in_range (x : num) : bool :=
  num_le (Float range_lo) x && num_le x (Float range_hi).

(** The extreme intermediate values on the ordinary range. *)
Definition c100 : spec_float := S754_finite false 7036874417766400 (-46).
Definition c1000 : spec_float := S754_finite false 8796093022208000 (-43).
Definition c4 : spec_float := S754_finite false 4503599627370496 (-50).
Definition m_lo : spec_float := F64.div range_lo c100.
Definition m_hi : spec_float := F64.div range_hi c100.
Definition sq_hi : spec_float := F64.mul m_hi m_hi.
Definition t_lo : spec_float := F64.div range_lo c1000.
Definition ft_lo : spec_float := F64.mul c4 t_lo.
Definition q_hi : spec_float := F64.div sq_hi ft_lo.
Definition film_hi : spec_float := F64.mul F64.pi q_hi.
Definition sets_hi : spec_float := F64.div film_hi m_lo.

(** strictly greater than 0 *)
Definition spec_positive (v : spec_float) : bool :=
  match v with
  | S754_finite false _ _ | S754_infinity false => true
  | _ => false
  end.

(** the arithmetic mean; 0.0 if the subset is empty *)
Definition spec_mean (xs : list spec_float) : spec_float :=
  match xs with
  | [] => S754_zero false
  | _ => F64.div (py_sum xs) (F64.of_Z (Z.of_nat (List.length xs)))
  end.

(** the sample standard deviation if there are at least 2 elements, else 0.0 *)
Definition spec_stdev (stdev : list spec_float -> spec_float) (xs : list spec_float) : spec_float :=
  if (2 <=? List.length xs)%nat then stdev xs else S754_zero false.



Definition ex_thick (pn vendor : cell) : thick_row :=
  {| th_pumbun := pn; th_pummyeong := Str "film"; th_vendor := vendor;
     th_measures := []; th_mean := S754_zero false; th_stdev := S754_zero false |}.

Definition ex_inputs : list spec_float :=
  [F64.dec 140 3; F64.dec 135 3; F64.dec 133 3; F64.of_Z 0; F64.of_Z 0; F64.of_Z 0;
   F64.of_Z 0; F64.of_Z 0; F64.of_Z 0].

Definition ex_thick_state : state :=
  {| config_df := []; thick_df := [ex_thick (Str "A1") (Str "IJ Pack"); ex_thick (Str "B2") NaN];
     config_file := None; thickness_file := None |}.

(** The rows of a sheet under its two required columns. *)
Definition bom_pairs (i j : nat) (df : frame) : list (list cell) :=
  map (fun r => [cell_at i r; cell_at j r]) (rows df).

Definition ex_sheet : frame :=
  {| columns := [col_pummyeong; col_pumbun; col_pummyeong_1];
     rows := [[Str "group"; Str "A1"; Str "film one"];
              [Str "group"; NaN; Str "no number"];
              [Str "other"; Str "A1"; Str "film one again"];
              [Str "other"; Num 77; Str "film two"]] |}.

(** The cases in which [load_bom] gives up on the file. *)
Definition bom_unusable (file : bom_file) : bool :=
  match file with
  | Absent | Unreadable _ => true
  | Sheet df => negb (has_column col_pumbun df) || negb (has_column col_pummyeong_1 df)
  end.


(** ** Further parts of the script *)

(** NaN or an infinity. *)
Definition special (x : spec_float) : bool := F64.is_nan x || F64.is_inf x.

Definition special_num (x : num) : bool :=
  match x with
  | Int _ => false
  | Float f => special f
  end.

(** NaN, an infinity or a zero. *)
Definition dead (x : spec_float) : bool := negb (F64.is_finite_nonzero x).




(** ** Powers of two *)

Lemma bpow_pos e : (0 < bpow e)%Q.
Proof. apply Qpower_0_lt. reflexivity. Qed.

Lemma bpow_add a b : (bpow (a + b) == bpow a * bpow b)%Q.
Proof. apply Qpower_plus. discriminate. Qed.

Lemma bpow_le a b : a <= b -> (bpow a <= bpow b)%Q.
Proof. intros. apply Qpower_le_compat_l; [assumption | discriminate]. Qed.

Lemma bpow_lt a b : a < b -> (bpow a < bpow b)%Q.
Proof. intros. apply Qpower_lt_compat_l; [assumption | reflexivity]. Qed.

Lemma bpow_Z e : 0 <= e -> (bpow e == inject_Z (2 ^ e))%Q.
Proof. intros. unfold bpow. rewrite Zpower_Qpower by assumption. reflexivity. Qed.

Lemma bpow_succ e : (bpow (e + 1) == 2 * bpow e)%Q.
Proof. rewrite bpow_add. change (bpow 1) with 2%Q. ring. Qed.

Lemma digits2_size p : digits2_pos p = Pos.size p.
Proof. induction p; simpl; congruence. Qed.

Lemma Zdigits2_spec m : 0 < m -> 2 ^ (Zdigits2 m - 1) <= m < 2 ^ Zdigits2 m.
Proof.
  destruct m as [|p|p]; try lia. intros _. simpl Zdigits2.
  rewrite digits2_size.
  pose proof (Pos.size_gt p) as Hgt. pose proof (Pos.size_le p) as Hle.
  split.
  - assert (2 ^ Z.pos (Pos.size p) <= 2 * Z.pos p).
    { rewrite <- Pos2Z.inj_pow. change (2 * Z.pos p) with (Z.pos p~0). lia. }
    replace (Z.pos (Pos.size p)) with (Z.succ (Z.pos (Pos.size p) - 1)) in H by lia.
    rewrite Z.pow_succ_r in H by lia. lia.
  - rewrite <- Pos2Z.inj_pow. lia.
Qed.

Lemma Zdigits2_nonneg m : 0 <= Zdigits2 m.
Proof. destruct m; simpl; lia. Qed.

Lemma Zdigits2_unique m d : 0 < m -> 2 ^ (d - 1) <= m < 2 ^ d -> Zdigits2 m = d.
Proof.
  intros Hm [H1 H2]. pose proof (Zdigits2_spec m Hm) as [H3 H4].
  assert (0 < d).
  { destruct (Z_lt_le_dec 0 d) as [|Hd]; auto.
    destruct (Z.eq_dec d 0) as [->|]; [simpl in H2; lia|].
    rewrite (Z.pow_neg_r 2 d) in H2 by lia. lia. }
  pose proof (Zdigits2_nonneg m).
  destruct (Z_lt_le_dec (Zdigits2 m) d).
  - assert (2 ^ Zdigits2 m <= 2 ^ (d - 1)) by (apply Z.pow_le_mono_r; lia). lia.
  - destruct (Z_lt_le_dec d (Zdigits2 m)); [|lia].
    assert (2 ^ d <= 2 ^ (Zdigits2 m - 1)) by (apply Z.pow_le_mono_r; lia). lia.
Qed.

Lemma Qfloor_unique y m : (inject_Z m <= y)%Q -> (y < inject_Z m + 1)%Q -> Qfloor y = m.
Proof.
  intros H1 H2.
  pose proof (Qfloor_le y) as H3. pose proof (Qlt_floor y) as H4.
  rewrite inject_Z_plus in H4. change (inject_Z 1) with 1%Q in H4.
  assert (inject_Z m < inject_Z (Qfloor y) + 1)%Q as A by lra.
  assert (inject_Z (Qfloor y) < inject_Z m + 1)%Q as B by lra.
  change 1%Q with (inject_Z 1) in A, B. rewrite <- inject_Z_plus in A, B.
  rewrite <- Zlt_Qlt in A, B. lia.
Qed.

Lemma rne_compat y y' : (y == y')%Q -> rne y = rne y'.
Proof.
  intros H. unfold rne. rewrite (Qfloor_comp _ _ H).
  assert (y - inject_Z (Qfloor y') == y' - inject_Z (Qfloor y'))%Q as E by (rewrite H; reflexivity).
  rewrite (Qcompare_comp _ _ E _ _ (Qeq_refl _)). reflexivity.
Qed.

Lemma rne_Z k : rne (inject_Z k) = k.
Proof.
  unfold rne. rewrite Qfloor_Z.
  assert ((inject_Z k - inject_Z k ?= 1 # 2)%Q = Lt) as ->; [|reflexivity].
  rewrite <- Qlt_alt. lra.
Qed.

Lemma rne_mono y1 y2 : (y1 <= y2)%Q -> rne y1 <= rne y2.
Proof.
  intros H. unfold rne.
  pose proof (Qfloor_resp_le _ _ H) as Hf.
  pose proof (Qfloor_le y1) as A1. pose proof (Qlt_floor y1) as B1.
  pose proof (Qfloor_le y2) as A2. pose proof (Qlt_floor y2) as B2.
  rewrite inject_Z_plus in B1, B2. change (inject_Z 1) with 1%Q in B1, B2.
  destruct (Z.eq_dec (Qfloor y1) (Qfloor y2)) as [E|NE].
  - rewrite <- E in *.
    destruct (Qcompare_spec (y1 - inject_Z (Qfloor y1)) (1#2)) as [C1|C1|C1];
    destruct (Qcompare_spec (y2 - inject_Z (Qfloor y1)) (1#2)) as [C2|C2|C2];
    try lia; try (exfalso; lra); destruct (Z.even (Qfloor y1)); lia.
  - assert (Qfloor y1 + 1 <= Qfloor y2) by lia.
    destruct (Qcompare (y1 - inject_Z (Qfloor y1)) (1#2));
    destruct (Qcompare (y2 - inject_Z (Qfloor y2)) (1#2));
    repeat match goal with |- context [Z.even ?a] => destruct (Z.even a) end; lia.
Qed.

Lemma rne_ge k y : (inject_Z k <= y)%Q -> k <= rne y.
Proof. intros H. rewrite <- (rne_Z k). now apply rne_mono. Qed.

Lemma rne_le k y : (y <= inject_Z k)%Q -> rne y <= k.
Proof. intros H. rewrite <- (rne_Z k). now apply rne_mono. Qed.

Lemma inb_compat y y' mrs : (y == y')%Q -> inb y mrs -> inb y' mrs.
Proof.
  intros E. unfold inb. destruct (shr_r mrs), (shr_s mrs); rewrite E; auto.
Qed.

Lemma inject_Z_xO p : (inject_Z (Z.pos p~0) == 2 * inject_Z (Z.pos p))%Q.
Proof. rewrite Pos2Z.inj_xO, inject_Z_mult. reflexivity. Qed.

Lemma inject_Z_xI p : (inject_Z (Z.pos p~1) == 2 * inject_Z (Z.pos p) + 1)%Q.
Proof. rewrite Pos2Z.inj_xI, inject_Z_plus, inject_Z_mult. reflexivity. Qed.

Lemma inb_shr_1 y mrs :
  0 <= shr_m mrs -> inb y mrs ->
  inb (y * (1 # 2)) (shr_1 mrs) /\ 0 <= shr_m (shr_1 mrs).
Proof.
  destruct mrs as [m r s]. cbn [shr_m]. intros Hm H.
  destruct m as [|p|p]; [| |lia].
  - unfold inb in *. destruct r, s; cbn [shr_1 orb shr_m shr_r shr_s] in *;
      change (inject_Z 0) with 0%Q in *; split; try lia; lra.
  - destruct p as [p|p|]; unfold inb in *; destruct r, s;
      cbn [shr_1 orb shr_m shr_r shr_s] in *;
      try rewrite inject_Z_xO in H; try rewrite inject_Z_xI in H;
      change (inject_Z 1) with 1%Q in *; change (inject_Z 0) with 0%Q in *;
      split; try lia; lra.
Qed.

Lemma bpow_opp_1 : (bpow (-1) == 1 # 2)%Q.
Proof. reflexivity. Qed.

Lemma inb_iter p : forall y mrs,
  0 <= shr_m mrs -> inb y mrs ->
  inb (y * bpow (- Z.pos p)) (iter_pos shr_1 p mrs) /\ 0 <= shr_m (iter_pos shr_1 p mrs).
Proof.
  induction p as [p IH|p IH|]; intros y mrs Hm H; cbn [iter_pos].
  - destruct (inb_shr_1 _ _ Hm H) as [H1 Hm1].
    destruct (IH _ _ Hm1 H1) as [H2 Hm2].
    destruct (IH _ _ Hm2 H2) as [H3 Hm3].
    split; [|assumption].
    eapply inb_compat; [|exact H3].
    replace (- Z.pos p~1) with (-1 + (- Z.pos p + - Z.pos p)) by lia.
    rewrite !bpow_add. change (bpow (-1)) with (1 # 2)%Q. ring.
  - destruct (IH _ _ Hm H) as [H2 Hm2].
    destruct (IH _ _ Hm2 H2) as [H3 Hm3].
    split; [|assumption].
    eapply inb_compat; [|exact H3].
    replace (- Z.pos p~0) with (- Z.pos p + - Z.pos p) by lia.
    rewrite !bpow_add. ring.
  - destruct (inb_shr_1 _ _ Hm H) as [H1 Hm1].
    split; [|assumption].
    eapply inb_compat; [|exact H1]. reflexivity.
Qed.

Lemma fexp_eq e : SpecFloat.fexp F64.prec F64.emax e = fexp e.
Proof. reflexivity. Qed.

(** One call of [shr_fexp] on a mantissa that is not yet too short. *)
Lemma shr_fexp_spec m e l x :
  0 <= m -> inb_loc (x * bpow (- e)) m l ->
  e <= fexp (Zdigits2 m + e) ->
  let c := fexp (Zdigits2 m + e) in
  exists mrs, shr_fexp F64.prec F64.emax m e l = (mrs, c) /\
              inb (x * bpow (- c)) mrs /\ 0 <= shr_m mrs.
Proof.
  intros Hm H Hle c. unfold shr_fexp. rewrite fexp_eq. fold c.
  assert (shr_m (shr_record_of_loc m l) = m) as Hsm.
  { destruct l as [|[]]; reflexivity. }
  unfold shr. destruct (c - e) as [|p|p] eqn:E.
  - exists (shr_record_of_loc m l). replace c with e by lia.
    split; [reflexivity|]. split; [exact H|]. now rewrite Hsm.
  - destruct (inb_iter p (x * bpow (- e))%Q (shr_record_of_loc m l)) as [H1 H2].
    + now rewrite Hsm.
    + exact H.
    + exists (iter_pos shr_1 p (shr_record_of_loc m l)). split.
      * f_equal. lia.
      * split; [|assumption]. eapply inb_compat; [|exact H1].
        replace (- c) with (- e + - Z.pos p) by lia. rewrite bpow_add. ring.
  - lia.
Qed.

Lemma rne_inb y mrs :
  inb y mrs -> round_nearest_even (shr_m mrs) (loc_of_shr_record mrs) = rne y.
Proof.
  destruct mrs as [m r s]. unfold inb. cbn [shr_m shr_r shr_s]. intros H.
  assert (Qfloor y = m) as Hf.
  { apply Qfloor_unique; destruct r, s; lra. }
  unfold rne. rewrite Hf.
  destruct r, s; cbn [loc_of_shr_record round_nearest_even].
  - assert ((y - inject_Z m ?= 1 # 2)%Q = Gt) as ->; [|reflexivity].
    rewrite <- Qgt_alt. lra.
  - assert ((y - inject_Z m ?= 1 # 2)%Q = Eq) as ->; [|reflexivity].
    rewrite <- Qeq_alt. lra.
  - assert ((y - inject_Z m ?= 1 # 2)%Q = Lt) as ->; [|reflexivity].
    rewrite <- Qlt_alt. lra.
  - assert ((y - inject_Z m ?= 1 # 2)%Q = Lt) as ->; [|reflexivity].
    rewrite <- Qlt_alt. lra.
Qed.

Lemma binary_round_aux_pack m e l :
  binary_round_aux F64.prec F64.emax false m e l =
  let '(mrs, e') := shr_fexp F64.prec F64.emax m e l in
  pack (round_nearest_even (shr_m mrs) (loc_of_shr_record mrs)) e'.
Proof. reflexivity. Qed.

Lemma F2Q_lt_bpow n k c : 0 <= k -> n < 2 ^ k -> (inject_Z n * bpow c < bpow (k + c))%Q.
Proof.
  intros Hk Hn. rewrite bpow_add, (bpow_Z k Hk).
  apply Qmult_lt_compat_r; [apply bpow_pos|]. now rewrite <- Zlt_Qlt.
Qed.

Lemma F2Q_ge_bpow n k c : 0 <= k -> 2 ^ k <= n -> (bpow (k + c) <= inject_Z n * bpow c)%Q.
Proof.
  intros Hk Hn. rewrite bpow_add, (bpow_Z k Hk).
  apply Qmult_le_compat_r; [|apply Qlt_le_weak, bpow_pos]. now rewrite <- Zle_Qle.
Qed.

Lemma fexp_ge e : -1074 <= fexp e.
Proof. unfold fexp. lia. Qed.

Lemma fexp_mono a b : a <= b -> fexp a <= fexp b.
Proof. unfold fexp. lia. Qed.

Lemma pack_spec n c :
  0 <= n <= 2 ^ 53 -> -1074 <= c -> (-1074 < c -> 2 ^ 52 <= n) ->
  nonneg (pack n c) /\ F64.valid (pack n c) = true /\
  (V (pack n c) == Qmin (inject_Z n * bpow c) top)%Q.
Proof.
  intros [Hn0 Hn] Hc Hnorm.
  destruct (Z.eq_dec n (2 ^ 53)) as [->|Hne].
  - (* the rounding carried into a 54th digit *)
    unfold pack, shr_fexp. rewrite fexp_eq.
    change (Zdigits2 (2 ^ 53)) with 54.
    replace (fexp (54 + c) - c) with 1 by (unfold fexp; lia).
    cbn [shr shr_record_of_loc iter_pos]. 
    change (shr_m (shr_1 {| shr_m := 2 ^ 53; shr_r := false; shr_s := false |})) with (2 ^ 52).
    change (2 ^ 52) with (Z.pos (2 ^ 52)). cbv iota beta.
    change (F64.emax - F64.prec) with 971.
    destruct (Z.leb_spec (c + 1) 971) as [L|L].
    + split; [exact I|]. split.
      * unfold F64.valid, valid_binary, bounded, canonical_mantissa. rewrite fexp_eq.
        change (Z.pos (digits2_pos (2 ^ 52))) with 53.
        change (F64.emax - F64.prec) with 971.
        apply andb_true_intro. split; [apply Z.eqb_eq; unfold fexp; lia | apply Z.leb_le; lia].
      * cbn [V cond_Zopp]. rewrite Q.min_l.
        -- rewrite bpow_add. change (bpow 1) with 2%Q.
           change (inject_Z (2 ^ 53)) with (2 * inject_Z (Z.pos (2 ^ 52)))%Q. ring.
        -- apply Qlt_le_weak. unfold top. 
           apply Qlt_le_trans with (bpow (54 + c)).
           ++ apply F2Q_lt_bpow; [lia|]. reflexivity.
           ++ apply bpow_le. lia.
    + split; [exact I|]. split; [reflexivity|].
      cbn [V]. rewrite Q.min_r; [reflexivity|].
      unfold top. apply Qle_trans with (bpow (53 + c)).
      * apply bpow_le. lia.
      * apply F2Q_ge_bpow; [lia|]. reflexivity.
  - assert (n < 2 ^ 53) as Hlt by lia. clear Hne Hn.
    unfold pack, shr_fexp. rewrite fexp_eq.
    destruct n as [|p|p]; [| |lia].
    + (* zero *)
      change (Zdigits2 0) with 0.
      assert (fexp (0 + c) - c <= 0) as Hs by (unfold fexp; lia).
      unfold shr. destruct (fexp (0 + c) - c) as [|q|q] eqn:E; try lia;
      cbn [shr_record_of_loc shr_m]; (split; [exact I|]); (split; [reflexivity|]);
      cbn [V]; rewrite Q.min_l; try ring; change (inject_Z 0) with 0%Q;
      pose proof (bpow_pos 1024); unfold top; lra.
    + pose proof (Zdigits2_spec (Z.pos p) eq_refl) as [Hd1 Hd2].
      pose proof (Zdigits2_nonneg (Z.pos p)) as Hd0.
      assert (Zdigits2 (Z.pos p) <= 53) as Hd.
      { destruct (Z_lt_le_dec 53 (Zdigits2 (Z.pos p))) as [A|A]; [|assumption].
        assert (2 ^ 53 <= 2 ^ (Zdigits2 (Z.pos p) - 1)) by (apply Z.pow_le_mono_r; lia). lia. }
      assert (-1074 < c -> Zdigits2 (Z.pos p) = 53) as Hd53.
      { intros A. specialize (Hnorm A).
        destruct (Z_lt_le_dec (Zdigits2 (Z.pos p)) 53) as [B|B]; [|lia].
        assert (2 ^ Zdigits2 (Z.pos p) <= 2 ^ 52) by (apply Z.pow_le_mono_r; lia). lia. }
      assert (fexp (Zdigits2 (Z.pos p) + c) = c) as Hcan.
      { unfold fexp. destruct (Z.eq_dec c (-1074)); [lia|]. rewrite Hd53 by lia. lia. }
      rewrite Hcan. rewrite Z.sub_diag. cbn [shr shr_record_of_loc shr_m]. cbv iota beta.
      change (F64.emax - F64.prec) with 971.
      destruct (Z.leb_spec c 971) as [L|L].
      * split; [exact I|]. split.
        -- unfold F64.valid, valid_binary, bounded, canonical_mantissa. rewrite fexp_eq.
           change (Z.pos (digits2_pos p)) with (Zdigits2 (Z.pos p)). rewrite Hcan.
           change (F64.emax - F64.prec) with 971.
           apply andb_true_intro. split; [apply Z.eqb_eq; reflexivity | apply Z.leb_le; lia].
        -- cbn [V cond_Zopp]. rewrite Q.min_l; [reflexivity|].
           apply Qlt_le_weak. unfold top.
           apply Qlt_le_trans with (bpow (53 + c)).
           ++ apply F2Q_lt_bpow; [lia|assumption].
           ++ apply bpow_le. lia.
      * split; [exact I|]. split; [reflexivity|].
        cbn [V]. rewrite Q.min_r; [reflexivity|].
        unfold top. apply Qle_trans with (bpow (52 + c)).
        -- apply bpow_le. lia.
        -- apply F2Q_ge_bpow; [lia|]. apply Hnorm. lia.
Qed.

Lemma inb_bounds y mrs :
  inb y mrs -> (inject_Z (shr_m mrs) <= y /\ y < inject_Z (shr_m mrs) + 1)%Q.
Proof. unfold inb. destruct (shr_r mrs), (shr_s mrs); intros; lra. Qed.

Lemma shr_m_of_loc m l : shr_m (shr_record_of_loc m l) = m.
Proof. destruct l as [|[]]; reflexivity. Qed.

Lemma bpow_inv_l e : (bpow (- e) * bpow e == 1)%Q.
Proof. rewrite <- bpow_add. replace (- e + e) with 0 by lia. reflexivity. Qed.

Lemma scale_lt x a b : (x < bpow a)%Q -> (x * bpow (- b) < bpow (a - b))%Q.
Proof.
  intros H. replace (a - b) with (a + - b) by lia. rewrite bpow_add.
  apply Qmult_lt_compat_r; [apply bpow_pos | assumption].
Qed.

Lemma scale_le x a b : (bpow a <= x)%Q -> (bpow (a - b) <= x * bpow (- b))%Q.
Proof.
  intros H. replace (a - b) with (a + - b) by lia. rewrite bpow_add.
  apply Qmult_le_compat_r; [assumption | apply Qlt_le_weak, bpow_pos].
Qed.

(** Magnitude of a value located by a mantissa and an exponent. *)
Lemma inb_mag m e l x :
  0 <= m -> inb_loc (x * bpow (- e)) m l ->
  e <= fexp (Zdigits2 m + e) ->
  mag_ok x (Zdigits2 m + e) /\ (0 <= x)%Q.
Proof.
  intros Hm H Hpre. apply inb_bounds in H. rewrite shr_m_of_loc in H.
  destruct H as [H1 H2].
  assert (x == (x * bpow (- e)) * bpow e)%Q as Hx.
  { rewrite <- Qmult_assoc, bpow_inv_l. ring. }
  pose proof (bpow_pos e) as Be.
  assert (inject_Z m * bpow e <= x)%Q as L1.
  { rewrite Hx. apply Qmult_le_compat_r; [assumption | lra]. }
  assert (x < (inject_Z m + 1) * bpow e)%Q as L2.
  { rewrite Hx. apply Qmult_lt_compat_r; assumption. }
  assert (0 <= inject_Z m)%Q as M0 by (change 0%Q with (inject_Z 0); now rewrite <- Zle_Qle).
  split; [|nra].
  destruct (Z.eq_dec m 0) as [->|Hne].
  - change (Zdigits2 0) with 0 in *. rewrite Z.add_0_l in *.
    split.
    + change (inject_Z 0) with 0%Q in L2. lra.
    + right. unfold fexp in *. lia.
  - assert (0 < m) as Hpos by lia.
    pose proof (Zdigits2_spec m Hpos) as [D1 D2].
    pose proof (Zdigits2_nonneg m) as D0.
    split.
    + apply Qlt_le_trans with ((inject_Z m + 1) * bpow e)%Q; [assumption|].
      rewrite bpow_add, (bpow_Z (Zdigits2 m)) by assumption.
      apply Qmult_le_compat_r; [|lra].
      change 1%Q with (inject_Z 1). rewrite <- inject_Z_plus, <- Zle_Qle. lia.
    + left. apply Qle_trans with (inject_Z m * bpow e)%Q; [|assumption].
      replace (Zdigits2 m + e - 1) with ((Zdigits2 m - 1) + e) by lia.
      apply F2Q_ge_bpow; [|assumption].
      destruct m as [|p|p]; try lia. cbn [Zdigits2]. lia.
Qed.

Lemma binary_round_aux_spec m e l x :
  0 <= m -> inb_loc (x * bpow (- e)) m l ->
  e <= fexp (Zdigits2 m + e) ->
  let r := binary_round_aux F64.prec F64.emax false m e l in
  nonneg r /\ F64.valid r = true /\ (V r == Rnd x (Zdigits2 m + e))%Q /\
  mag_ok x (Zdigits2 m + e).
Proof.
  intros Hm H Hpre r.
  destruct (inb_mag m e l x Hm H Hpre) as [[Hlt Hge] Hx0].
  destruct (shr_fexp_spec m e l x Hm H Hpre) as (mrs & Hs & Hin & Hm').
  set (D := Zdigits2 m + e) in *. set (c := fexp D) in *.
  subst r. rewrite binary_round_aux_pack, Hs. cbv iota beta.
  rewrite (rne_inb _ _ Hin).
  set (n := rne (x * bpow (- c))).
  assert (0 <= n) as Hn0.
  { apply rne_ge. change (inject_Z 0) with 0%Q.
    apply Qmult_le_0_compat; [assumption | apply Qlt_le_weak, bpow_pos]. }
  assert (n <= 2 ^ 53) as Hn1.
  { apply rne_le. apply Qlt_le_weak.
    apply Qlt_le_trans with (bpow (D - c)); [now apply scale_lt|].
    rewrite <- (bpow_Z 53) by lia. apply bpow_le. unfold c, fexp. lia. }
  assert (-1074 < c -> 2 ^ 52 <= n) as Hn2.
  { intros Hc. destruct Hge as [Hge|Hge]; [|unfold c in Hc; lia].
    apply rne_ge. rewrite <- (bpow_Z 52) by lia.
    replace 52 with (D - 1 - c) by (unfold c, fexp in *; lia).
    now apply scale_le. }
  destruct (pack_spec n c (conj Hn0 Hn1) (fexp_ge D) Hn2) as (P1 & P2 & P3).
  repeat split; try assumption.
Qed.

(** Rounding is monotone. *)
Lemma Rnd_mono x1 D1 x2 D2 :
  mag_ok x1 D1 -> mag_ok x2 D2 -> (0 <= x1)%Q -> (x1 <= x2)%Q ->
  (Rnd x1 D1 <= Rnd x2 D2)%Q.
Proof.
  intros [U1 L1] [U2 L2] H0 H12. unfold Rnd.
  apply Q.min_le_compat_r.
  set (c1 := fexp D1). set (c2 := fexp D2).
  pose proof (bpow_pos c1) as B1. pose proof (bpow_pos c2) as B2.
  destruct (Z.compare_spec c1 c2) as [E|Lt|Gt].
  - rewrite <- E. apply Qmult_le_compat_r; [|lra].
    rewrite <- Zle_Qle. apply rne_mono.
    apply Qmult_le_compat_r; [assumption | apply Qlt_le_weak, bpow_pos].
  - (* the larger value lies in a higher binade *)
    assert (D1 < D2) as HD.
    { destruct (Z_lt_le_dec D1 D2); [assumption|].
      pose proof (fexp_mono D2 D1 ltac:(lia)). unfold c1, c2 in Lt. lia. }
    assert (c2 = D2 - 53) as Hc2 by (unfold c1, c2, fexp in *; lia).
    destruct L2 as [L2|L2]; [|unfold c1, c2, fexp in *; lia].
    assert (bpow (D2 - 1) <= inject_Z (rne (x2 * bpow (- c2))) * bpow c2)%Q as R2.
    { replace (D2 - 1) with (52 + c2) by lia. apply F2Q_ge_bpow; [lia|].
      apply rne_ge. rewrite <- (bpow_Z 52) by lia.
      replace 52 with (D2 - 1 - c2) by lia. now apply scale_le. }
    apply Qle_trans with (bpow (D2 - 1)); [|assumption].
    destruct (Z_lt_le_dec D1 c1) as [A|A].
    + (* below the smallest positive value *)
      apply Qle_trans with (bpow c1); [|apply bpow_le; lia].
      rewrite <- (Qmult_1_l (bpow c1)) at 2.
      apply Qmult_le_compat_r; [|lra].
      change 1%Q with (inject_Z 1). rewrite <- Zle_Qle. apply rne_le.
      change (inject_Z 1) with (bpow 0). apply Qlt_le_weak.
      apply Qlt_le_trans with (bpow (D1 - c1)); [now apply scale_lt | apply bpow_le; lia].
    + apply Qle_trans with (bpow D1); [|apply bpow_le; lia].
      assert (bpow D1 == inject_Z (2 ^ (D1 - c1)) * bpow c1)%Q as ->.
      { rewrite <- bpow_Z, <- bpow_add by lia. now replace (D1 - c1 + c1) with D1 by lia. }
      apply Qmult_le_compat_r; [|lra].
      rewrite <- Zle_Qle. apply rne_le. rewrite <- bpow_Z by lia.
      apply Qlt_le_weak. now apply scale_lt.
  - exfalso.
    assert (D2 < D1) as HD.
    { destruct (Z_lt_le_dec D2 D1); [assumption|].
      pose proof (fexp_mono D1 D2 ltac:(lia)). unfold c1, c2 in Gt. lia. }
    destruct L1 as [L1|L1]; [|unfold c1, c2, fexp in *; lia].
    assert (bpow D2 <= bpow (D1 - 1))%Q by (apply bpow_le; lia). lra.
Qed.

Lemma rounds_to_mono x1 r1 x2 r2 :
  rounds_to x1 r1 -> rounds_to x2 r2 -> (0 <= x1)%Q -> (x1 <= x2)%Q ->
  (V r1 <= V r2)%Q.
Proof.
  intros (_ & _ & D1 & M1 & E1) (_ & _ & D2 & M2 & E2) H0 H.
  rewrite E1, E2. now apply Rnd_mono.
Qed.

Lemma Rnd_compat x x' D : (x == x')%Q -> (Rnd x D == Rnd x' D)%Q.
Proof.
  intros E. unfold Rnd.
  rewrite (rne_compat (x * bpow (- fexp D)) (x' * bpow (- fexp D))); [reflexivity|].
  now rewrite E.
Qed.

Lemma mag_ok_compat x x' D : (x == x')%Q -> mag_ok x D -> mag_ok x' D.
Proof. intros E [H1 H2]. split; [|destruct H2; [left|right]; trivial]; now rewrite <- E. Qed.

Lemma rounds_to_compat x x' r : (x == x')%Q -> rounds_to x r -> rounds_to x' r.
Proof.
  intros E (H1 & H2 & D & M & EV). repeat split; trivial.
  exists D. split; [now apply (mag_ok_compat x)|]. now rewrite <- (Rnd_compat x x' D E).
Qed.

Lemma top_pos : (0 < top)%Q.
Proof. apply bpow_pos. Qed.

Lemma rounds_to_zero : rounds_to 0 (S754_zero false).
Proof.
  split; [exact I|]. split; [reflexivity|]. exists (-1074). split.
  - split; [apply bpow_pos | right; reflexivity].
  - unfold Rnd. rewrite (rne_compat _ (inject_Z 0)) by (change (inject_Z 0) with 0%Q; ring).
    rewrite rne_Z. cbn [V]. rewrite Q.min_l.
    + change (inject_Z 0) with 0%Q. ring.
    + change (inject_Z 0) with 0%Q. pose proof top_pos. lra.
Qed.

Lemma binary_round_aux_rounds m e l x :
  0 <= m -> inb_loc (x * bpow (- e)) m l ->
  e <= fexp (Zdigits2 m + e) ->
  rounds_to x (binary_round_aux F64.prec F64.emax false m e l).
Proof.
  intros Hm H Hpre.
  destruct (binary_round_aux_spec m e l x Hm H Hpre) as (A & B & C & D).
  split; [assumption|]. split; [assumption|]. eauto.
Qed.

(** Left shifts of a mantissa *)
Lemma iter_xO p d : Z.pos (Pos.iter xO p d) = Z.pos p * 2 ^ Z.pos d.
Proof.
  induction d as [|d IH] using Pos.peano_ind.
  - cbn [Pos.iter]. lia.
  - rewrite Pos.iter_succ, Pos2Z.inj_xO, IH, Pos2Z.inj_succ, Z.pow_succ_r by lia. ring.
Qed.

Lemma shl_align_spec p e e' :
  let '(m1, e1) := shl_align p e e' in
  e1 = Z.min e e' /\ Z.pos m1 = Z.pos p * 2 ^ (e - e1).
Proof.
  unfold shl_align. destruct (e' - e) as [|d|d] eqn:E.
  - split; [lia|]. rewrite Z.sub_diag. lia.
  - split; [lia|]. rewrite Z.sub_diag. lia.
  - split; [lia|]. rewrite iter_xO. f_equal. f_equal. lia.
Qed.

Lemma Zdigits2_shift m k : 0 < m -> 0 <= k -> Zdigits2 (m * 2 ^ k) = Zdigits2 m + k.
Proof.
  intros Hm Hk. pose proof (Zdigits2_spec m Hm) as [H1 H2].
  assert (0 < Zdigits2 m) by (destruct m; simpl; lia).
  apply Zdigits2_unique.
  - apply Z.mul_pos_pos; [assumption | apply Z.pow_pos_nonneg; lia].
  - replace (Zdigits2 m + k - 1) with ((Zdigits2 m - 1) + k) by lia.
    rewrite !Z.pow_add_r by lia.
    assert (0 < 2 ^ k) by (apply Z.pow_pos_nonneg; lia). nia.
Qed.

Lemma binary_round_rounds p e :
  rounds_to (inject_Z (Z.pos p) * bpow e) (binary_round F64.prec F64.emax false p e).
Proof.
  unfold binary_round. rewrite fexp_eq.
  pose proof (shl_align_spec p e (fexp (Z.pos (digits2_pos p) + e))) as H.
  destruct (shl_align p e (fexp (Z.pos (digits2_pos p) + e))) as [m1 e1].
  destruct H as [He Hm].
  change (Z.pos (digits2_pos p)) with (Zdigits2 (Z.pos p)) in *.
  assert (Zdigits2 (Z.pos m1) + e1 = Zdigits2 (Z.pos p) + e) as HD.
  { rewrite Hm, Zdigits2_shift by lia. lia. }
  apply binary_round_aux_rounds.
  - lia.
  - unfold inb_loc, inb. cbn [shr_record_of_loc shr_m shr_r shr_s].
    rewrite Hm, inject_Z_mult, <- (bpow_Z (e - e1)) by lia.
    rewrite <- !Qmult_assoc, <- !bpow_add. replace (e + - e1) with (e - e1) by lia.
    reflexivity.
  - rewrite HD. lia.
Qed.

Lemma valid_finite s m e :
  F64.valid (S754_finite s m e) = true ->
  fexp (Zdigits2 (Z.pos m) + e) = e /\ e <= 971.
Proof.
  unfold F64.valid, valid_binary, bounded, canonical_mantissa. rewrite fexp_eq.
  intros H. apply andb_prop in H. destruct H as [H1 H2].
  apply Z.eqb_eq in H1. apply Z.leb_le in H2. split; assumption.
Qed.

Lemma Zdigits2_mul a b :
  0 < a -> 0 < b -> Zdigits2 a + Zdigits2 b - 1 <= Zdigits2 (a * b).
Proof.
  intros Ha Hb.
  pose proof (Zdigits2_spec a Ha) as [A1 A2].
  pose proof (Zdigits2_spec b Hb) as [B1 B2].
  assert (0 < a * b) as Hab by nia.
  pose proof (Zdigits2_spec (a * b) Hab) as [C1 C2].
  assert (0 < Zdigits2 a) by (destruct a; simpl; lia).
  assert (0 < Zdigits2 b) by (destruct b; simpl; lia).
  pose proof (Zdigits2_nonneg (a * b)).
  destruct (Z_lt_le_dec (Zdigits2 (a * b)) (Zdigits2 a + Zdigits2 b - 1)) as [L|L]; [|assumption].
  exfalso.
  assert (2 ^ Zdigits2 (a * b) <= 2 ^ (Zdigits2 a - 1 + (Zdigits2 b - 1))) as P
    by (apply Z.pow_le_mono_r; lia).
  rewrite Z.pow_add_r in P by lia.
  assert (0 < 2 ^ (Zdigits2 a - 1)) by (apply Z.pow_pos_nonneg; lia).
  assert (0 < 2 ^ (Zdigits2 b - 1)) by (apply Z.pow_pos_nonneg; lia).
  nia.
Qed.

Lemma mul_rounds a b :
  fin a -> fin b -> nonneg a -> nonneg b -> F64.valid a = true -> F64.valid b = true ->
  rounds_to (V a * V b) (F64.mul a b).
Proof.
  intros Fa Fb Na Nb Va Vb.
  destruct a as [[]|[]| |[] ma ea]; try contradiction;
  destruct b as [[]|[]| |[] mb eb]; try contradiction;
  cbn [F64.mul SFmul xorb V];
  try (apply (rounds_to_compat 0); [ring | apply rounds_to_zero]).
  apply valid_finite in Va, Vb. destruct Va as [Ca Ba], Vb as [Cb Bb].
  unfold F64.mul, SFmul, xorb.
  apply binary_round_aux_rounds.
  - lia.
  - unfold inb_loc, inb. cbn [shr_record_of_loc shr_m shr_r shr_s cond_Zopp].
    rewrite Pos2Z.inj_mul, inject_Z_mult.
    replace (- (ea + eb)) with (- ea + - eb) by lia. rewrite bpow_add.
    transitivity (inject_Z (Z.pos ma) * inject_Z (Z.pos mb) *
                  ((bpow (- ea) * bpow ea) * (bpow (- eb) * bpow eb)))%Q; [ring|].
    rewrite !bpow_inv_l. ring.
  - rewrite Pos2Z.inj_mul.
    pose proof (Zdigits2_mul (Z.pos ma) (Z.pos mb) eq_refl eq_refl).
    assert (0 < Zdigits2 (Z.pos ma)) by (simpl; lia).
    assert (0 < Zdigits2 (Z.pos mb)) by (simpl; lia).
    unfold fexp in *. lia.
Qed.

(** Location of a quotient from its remainder *)
Lemma new_location_spec nb k :
  0 < nb -> 0 <= k < nb ->
  new_location nb k =
  if k =? 0 then loc_Exact else loc_Inexact (2 * k ?= nb).
Proof.
  intros Hnb Hk. unfold new_location.
  destruct (Z.even nb) eqn:Ev.
  - reflexivity.
  - unfold new_location_odd. destruct (k =? 0); [reflexivity|].
    f_equal.
    assert (Z.odd nb = true) as Od by (rewrite <- Z.negb_even, Ev; reflexivity).
    apply Z.odd_spec in Od. destruct Od as [h Hh].
    destruct (Z.compare_spec (2 * k + 1) nb) as [E|L|G];
    destruct (Z.compare_spec (2 * k) nb) as [E'|L'|G']; try reflexivity; lia.
Qed.

Lemma div_core_spec ma ea mb eb :
  let '(q, e', l) := SFdiv_core_binary F64.prec F64.emax (Z.pos ma) ea (Z.pos mb) eb in
  0 <= q /\
  e' <= fexp (Zdigits2 q + e') /\
  forall x, (x * (inject_Z (Z.pos mb) * bpow eb) == inject_Z (Z.pos ma) * bpow ea)%Q ->
            inb_loc (x * bpow (- e')) q l.
Proof.
  unfold SFdiv_core_binary. rewrite fexp_eq.
  set (d1 := Zdigits2 (Z.pos ma)). set (d2 := Zdigits2 (Z.pos mb)).
  set (e' := Z.min (fexp (d1 + ea - (d2 + eb))) (ea - eb)).
  set (s := ea - eb - e').
  assert (0 <= s) as Hs by (unfold s, e'; lia).
  set (m' := match s with Z.pos _ => Z.shiftl (Z.pos ma) s | 0 => Z.pos ma | Z.neg _ => 0 end).
  assert (m' = Z.pos ma * 2 ^ s) as Hm'.
  { unfold m'. destruct s as [|p|p]; [lia | apply Z.shiftl_mul_pow2; lia | lia]. }
  clearbody m'.
  pose proof (Z_div_mod m' (Z.pos mb) eq_refl) as Hdm.
  destruct (Z.div_eucl m' (Z.pos mb)) as [q r]. destruct Hdm as [Hq Hr].
  assert (0 < 2 ^ s) as P2 by (apply Z.pow_pos_nonneg; lia).
  assert (0 < m') as Hm'pos by nia.
  assert (0 <= q) as Hq0 by nia.
  pose proof (Zdigits2_spec (Z.pos ma) eq_refl) as [A1 A2]. fold d1 in A1, A2.
  pose proof (Zdigits2_spec (Z.pos mb) eq_refl) as [B1 B2]. fold d2 in B1, B2.
  assert (0 < d1) as Hd1 by (unfold d1; simpl; lia).
  assert (0 < d2) as Hd2 by (unfold d2; simpl; lia).
  split; [assumption|]. split.
  - (* the quotient has enough digits *)
    assert (2 ^ (d1 - 1 + s) <= m') as Lm.
    { rewrite Hm', Z.pow_add_r by lia. nia. }
    destruct (Z.eq_dec q 0) as [->|Hq1].
    + change (Zdigits2 0) with 0. rewrite Z.add_0_l.
      assert (d1 - 1 + s < d2) as Hlt.
      { destruct (Z_lt_le_dec (d1 - 1 + s) d2); [assumption|].
        assert (2 ^ d2 <= 2 ^ (d1 - 1 + s)) by (apply Z.pow_le_mono_r; lia). lia. }
      unfold s, e', fexp in *. lia.
    + assert (0 < q) as Hqpos by lia.
      pose proof (Zdigits2_spec q Hqpos) as [Q1 Q2].
      pose proof (Zdigits2_nonneg q) as Q0.
      assert (0 < Zdigits2 q) by (destruct q; simpl; lia).
      assert (d1 + s - d2 <= Zdigits2 q) as Hdq.
      { destruct (Z_lt_le_dec (Zdigits2 q) (d1 + s - d2)) as [L|L]; [|assumption].
        exfalso.
        assert (2 ^ (Zdigits2 q + d2) <= 2 ^ (d1 - 1 + s)) as P
          by (apply Z.pow_le_mono_r; lia).
        rewrite Z.pow_add_r in P by lia.
        assert (m' < (q + 1) * Z.pos mb) by nia.
        assert (0 < 2 ^ Zdigits2 q) by (apply Z.pow_pos_nonneg; lia).
        assert (0 < 2 ^ d2) by (apply Z.pow_pos_nonneg; lia).
        nia. }
      apply Z.le_trans with (fexp (d1 + ea - (d2 + eb))); [unfold e'; lia|].
      apply fexp_mono. unfold s in Hdq. lia.
  - intros x Hx.
    assert (x * bpow (- e') * inject_Z (Z.pos mb) == inject_Z q * inject_Z (Z.pos mb) + inject_Z r)%Q as Hy.
    { rewrite <- inject_Z_mult, <- inject_Z_plus. rewrite (Z.mul_comm q), <- Hq, Hm'.
      rewrite inject_Z_mult, <- (bpow_Z s) by lia.
      replace s with (ea + - eb + - e') by (unfold s; lia). rewrite !bpow_add.
      transitivity (x * (inject_Z (Z.pos mb) * bpow eb) * bpow (- eb) * bpow (- e'))%Q.
      - transitivity (x * bpow (- e') * inject_Z (Z.pos mb) * (bpow (- eb) * bpow eb))%Q.
        + rewrite bpow_inv_l. ring.
        + ring.
      - rewrite Hx. ring. }
    set (y := (x * bpow (- e'))%Q) in *.
    assert (0 < inject_Z (Z.pos mb))%Q as Mpos by (change 0%Q with (inject_Z 0); now rewrite <- Zlt_Qlt).
    assert (0 <= inject_Z r)%Q as R0 by (change 0%Q with (inject_Z 0); rewrite <- Zle_Qle; lia).
    rewrite new_location_spec by lia.
    unfold inb_loc, inb.
    destruct (Z.eqb_spec r 0) as [->|Hr0].
    + cbn [shr_record_of_loc shr_m shr_r shr_s].
      change (inject_Z 0) with 0%Q in Hy.
      apply (Qmult_inj_r _ _ (inject_Z (Z.pos mb))); [lra|]. rewrite Hy. ring.
    + assert (0 < inject_Z r)%Q as Rpos by (change 0%Q with (inject_Z 0); rewrite <- Zlt_Qlt; lia).
      set (M := inject_Z (Z.pos mb)) in *. set (R := inject_Z r) in *. set (G := inject_Z q) in *.
      destruct (Z.compare_spec (2 * r) (Z.pos mb)) as [E|L|G1];
        cbn [shr_record_of_loc shr_m shr_r shr_s]; fold G.
      * assert (2 * R == M)%Q as E2.
        { unfold R, M. rewrite <- E, inject_Z_mult. reflexivity. }
        apply (Qmult_inj_r _ _ M); [lra|]. rewrite Hy. lra.
      * assert (2 * R < M)%Q as E2.
        { unfold R, M. change 2%Q with (inject_Z 2). rewrite <- inject_Z_mult, <- Zlt_Qlt. assumption. }
        split; apply (Qmult_lt_r _ _ M Mpos); rewrite Hy; lra.
      * assert (M < 2 * R)%Q as E2.
        { unfold R, M. change 2%Q with (inject_Z 2). rewrite <- inject_Z_mult, <- Zlt_Qlt. assumption. }
        assert (R < M)%Q as E3.
        { unfold R, M. rewrite <- Zlt_Qlt. lia. }
        split; apply (Qmult_lt_r _ _ M Mpos); rewrite Hy; lra.
Qed.

Lemma F2Q_pos m e : (0 < inject_Z (Z.pos m) * bpow e)%Q.
Proof.
  apply Qmult_lt_0_compat; [|apply bpow_pos].
  change 0%Q with (inject_Z 0). now rewrite <- Zlt_Qlt.
Qed.

Lemma div_finite_rounds ma ea mb eb :
  rounds_to (inject_Z (Z.pos ma) * bpow ea / (inject_Z (Z.pos mb) * bpow eb))
            (F64.div (S754_finite false ma ea) (S754_finite false mb eb)).
Proof.
  unfold F64.div, SFdiv, xorb.
  pose proof (div_core_spec ma ea mb eb) as H.
  destruct (SFdiv_core_binary F64.prec F64.emax (Z.pos ma) ea (Z.pos mb) eb) as [[q e'] l].
  destruct H as (Hq & Hpre & Hin).
  apply binary_round_aux_rounds; try assumption.
  apply Hin. rewrite Qmult_comm. apply Qmult_div_r.
  pose proof (F2Q_pos mb eb). lra.
Qed.

Lemma div_rounds a b :
  fin a -> nonneg a -> nonneg b -> (0 < V b)%Q -> b <> S754_infinity false ->
  rounds_to (V a / V b) (F64.div a b).
Proof.
  intros Fa Na Nb Pb Ib.
  destruct a as [[]|[]| |[] ma ea]; try contradiction;
  destruct b as [[]|[]| |[] mb eb]; try contradiction; try congruence;
  cbn [V] in Pb; try lra.
  - cbn [F64.div SFdiv xorb V]. apply (rounds_to_compat 0); [|apply rounds_to_zero].
    unfold Qdiv. ring.
  - cbn [V cond_Zopp]. apply div_finite_rounds.
Qed.

Lemma Zdigits2_le_53 m e : fexp (Zdigits2 (Z.pos m) + e) = e -> Z.pos m < 2 ^ 53.
Proof.
  intros H. pose proof (Zdigits2_spec (Z.pos m) eq_refl) as [_ H2].
  assert (0 < Zdigits2 (Z.pos m)) by (simpl; lia).
  assert (2 ^ Zdigits2 (Z.pos m) <= 2 ^ 53); [|lia].
  apply Z.pow_le_mono_r; [lia|]. unfold fexp in H. lia.
Qed.

(** A binary64 value rounds to itself. *)
Lemma rounds_to_self a :
  fin a -> nonneg a -> F64.valid a = true -> rounds_to (V a) a.
Proof.
  intros Fa Na Va.
  destruct a as [[]|[]| |[] m e]; try contradiction.
  - apply rounds_to_zero.
  - split; [exact I|]. split; [assumption|].
    apply valid_finite in Va. destruct Va as [Hc Hb].
    pose proof (Zdigits2_le_53 m e Hc) as Hm.
    pose proof (Zdigits2_spec (Z.pos m) eq_refl) as [D1 D2].
    assert (0 < Zdigits2 (Z.pos m)) as Dpos by (simpl; lia).
    exists (Zdigits2 (Z.pos m) + e). cbn [V cond_Zopp]. split.
    + split.
      * apply F2Q_lt_bpow; [lia | assumption].
      * left. replace (Zdigits2 (Z.pos m) + e - 1) with (Zdigits2 (Z.pos m) - 1 + e) by lia.
        apply F2Q_ge_bpow; [lia | assumption].
    + unfold Rnd. rewrite Hc.
      rewrite (rne_compat _ (inject_Z (Z.pos m))).
      * rewrite rne_Z, Q.min_l; [reflexivity|].
        apply Qlt_le_weak, Qlt_le_trans with (bpow (53 + e)).
        -- apply F2Q_lt_bpow; [lia | assumption].
        -- unfold top. apply bpow_le. lia.
      * rewrite <- Qmult_assoc, (Qmult_comm (bpow e)), bpow_inv_l. ring.
Qed.

Lemma sub_rounds a b :
  fin a -> fin b -> nonneg a -> nonneg b -> F64.valid a = true -> (V b <= V a)%Q ->
  rounds_to (V a - V b) (F64.sub a b).
Proof.
  intros Fa Fb Na Nb Va Hle.
  destruct a as [[]|[]| |[] ma ea]; try contradiction;
  destruct b as [[]|[]| |[] mb eb]; try contradiction.
  - cbn [F64.sub SFsub V]. apply (rounds_to_compat 0); [ring | apply rounds_to_zero].
  - exfalso. cbn [V cond_Zopp] in Hle. pose proof (F2Q_pos mb eb). lra.
  - cbn [F64.sub SFsub V cond_Zopp].
    apply (rounds_to_compat (inject_Z (Z.pos ma) * bpow ea)); [ring|].
    now apply (rounds_to_self (S754_finite false ma ea)).
  - unfold F64.sub, SFsub. cbn [cond_Zopp V] in Hle |- *.
    set (ez := Z.min ea eb).
    pose proof (shl_align_spec ma ea ez) as Ha.
    pose proof (shl_align_spec mb eb ez) as Hb.
    destruct (shl_align ma ea ez) as [ma' ea']. destruct (shl_align mb eb ez) as [mb' eb'].
    destruct Ha as [Ea Ma], Hb as [Eb Mb]. cbn [fst].
    assert (Z.min ea ez = ez) as Ra by (unfold ez; lia).
    assert (Z.min eb ez = ez) as Rb by (unfold ez; lia).
    rewrite Ra in Ea. rewrite Rb in Eb. subst ea' eb'.
    assert (inject_Z (Z.pos ma) * bpow ea - inject_Z (Z.pos mb) * bpow eb ==
            inject_Z (Z.pos ma' - Z.pos mb') * bpow ez)%Q as EV.
    { replace (Z.pos ma' - Z.pos mb') with (Z.pos ma' + - Z.pos mb') by lia.
      rewrite inject_Z_plus, inject_Z_opp, Ma, Mb, !inject_Z_mult.
      rewrite <- !bpow_Z by (unfold ez; lia).
      transitivity (inject_Z (Z.pos ma) * (bpow (ea - ez) * bpow ez)
                    - inject_Z (Z.pos mb) * (bpow (eb - ez) * bpow ez))%Q; [|ring].
      rewrite <- !bpow_add. now replace (ea - ez + ez) with ea by lia; replace (eb - ez + ez) with eb by lia. }
    apply (rounds_to_compat _ _ _ (Qeq_sym _ _ EV)).
    assert (0 <= Z.pos ma' - Z.pos mb') as Hd.
    { assert (0 <= inject_Z (Z.pos ma' - Z.pos mb') * bpow ez)%Q as P by (rewrite <- EV; lra).
      pose proof (bpow_pos ez).
      destruct (Z_lt_le_dec (Z.pos ma' - Z.pos mb') 0) as [L|L]; [|assumption].
      exfalso. assert (inject_Z (Z.pos ma' - Z.pos mb') < 0)%Q by (change 0%Q with (inject_Z 0); now rewrite <- Zlt_Qlt).
      nra. }
    destruct (Z.pos ma' - Z.pos mb') as [|p|p]; [| |lia].
    + cbn [binary_normalize]. apply (rounds_to_compat 0); [change (inject_Z 0) with 0%Q; ring | apply rounds_to_zero].
    + cbn [binary_normalize]. apply binary_round_rounds.
Qed.

Lemma Qcompare_inject_Z a b : Qcompare (inject_Z a) (inject_Z b) = Z.compare a b.
Proof. unfold Qcompare, inject_Z. cbn [Qnum Qden]. now rewrite !Z.mul_1_r. Qed.

Lemma Qcompare_lt x y : (x < y)%Q -> Qcompare x y = Lt.
Proof. intros H. now apply Qlt_alt. Qed.

Lemma Qcompare_gt x y : (y < x)%Q -> Qcompare x y = Gt.
Proof. intros H. now apply Qgt_alt. Qed.

Lemma Qcompare_eq x y : (x == y)%Q -> Qcompare x y = Eq.
Proof. intros H. now apply Qeq_alt. Qed.

Lemma Qcompare_scale x y b : (0 < b)%Q -> Qcompare (x * b) (y * b) = Qcompare x y.
Proof.
  intros Hb. destruct (Qcompare_spec x y) as [E|L|G].
  - apply Qcompare_eq. now rewrite E.
  - apply Qcompare_lt. now apply Qmult_lt_compat_r.
  - apply Qcompare_gt. now apply Qmult_lt_compat_r.
Qed.

Lemma Qcompare_opp x y : Qcompare (- x) (- y) = CompOpp (Qcompare x y).
Proof.
  destruct (Qcompare_spec x y) as [E|L|G]; cbn [CompOpp].
  - apply Qcompare_eq. now rewrite E.
  - apply Qcompare_gt. lra.
  - apply Qcompare_lt. lra.
Qed.

Lemma compare_pos_finite m1 e1 m2 e2 :
  F64.valid (S754_finite false m1 e1) = true -> F64.valid (S754_finite false m2 e2) = true ->
  match Z.compare e1 e2 with
  | Lt => Lt
  | Gt => Gt
  | Eq => Pos.compare_cont Eq m1 m2
  end = Qcompare (inject_Z (Z.pos m1) * bpow e1) (inject_Z (Z.pos m2) * bpow e2).
Proof.
  intros V1 V2. apply valid_finite in V1, V2. destruct V1 as [C1 _], V2 as [C2 _].
  pose proof (Zdigits2_le_53 _ _ C1) as L1. pose proof (Zdigits2_le_53 _ _ C2) as L2.
  pose proof (Zdigits2_spec (Z.pos m1) eq_refl) as [A1 _].
  pose proof (Zdigits2_spec (Z.pos m2) eq_refl) as [A2 _].
  assert (forall m e, fexp (Zdigits2 (Z.pos m) + e) = e -> -1074 < e ->
                      2 ^ (Zdigits2 (Z.pos m) - 1) <= Z.pos m -> 2 ^ 52 <= Z.pos m) as Hn.
  { intros m e C He A. replace 52 with (Zdigits2 (Z.pos m) - 1); [assumption|].
    unfold fexp in C. lia. }
  assert (-1074 <= e1) by (rewrite <- C1; apply fexp_ge).
  assert (-1074 <= e2) by (rewrite <- C2; apply fexp_ge).
  destruct (Z.compare_spec e1 e2) as [E|L|G].
  - subst e2. rewrite Qcompare_scale by apply bpow_pos.
    rewrite Qcompare_inject_Z. reflexivity.
  - symmetry. apply Qcompare_lt.
    apply Qlt_le_trans with (bpow (53 + e1)); [apply F2Q_lt_bpow; [lia|assumption]|].
    apply Qle_trans with (bpow (52 + e2)); [apply bpow_le; lia|].
    apply F2Q_ge_bpow; [lia|]. apply (Hn m2 e2); trivial. lia.
  - symmetry. apply Qcompare_gt.
    apply Qlt_le_trans with (bpow (53 + e2)); [apply F2Q_lt_bpow; [lia|assumption]|].
    apply Qle_trans with (bpow (52 + e1)); [apply bpow_le; lia|].
    apply F2Q_ge_bpow; [lia|]. apply (Hn m1 e1); trivial. lia.
Qed.

Lemma valid_sign s m e : F64.valid (S754_finite s m e) = F64.valid (S754_finite false m e).
Proof. reflexivity. Qed.

Lemma SFcompare_ext a b :
  F64.valid a = true -> F64.valid b = true ->
  SFcompare a b =
  match float_ext a, float_ext b with
  | Some x, Some y => Some (ext_compare x y)
  | _, _ => None
  end.
Proof.
  intros Va Vb.
  destruct a as [sa|sa| |sa ma ea]; destruct b as [sb|sb| |sb mb eb];
    cbn [SFcompare float_ext ext_compare V]; try reflexivity;
    try (destruct sa; reflexivity); try (destruct sb; reflexivity);
    try (destruct sa, sb; reflexivity).
  - (* zero, finite *)
    f_equal. symmetry. pose proof (F2Q_pos mb eb).
    destruct sb; cbn [cond_Zopp]; [apply Qcompare_gt | apply Qcompare_lt];
      change (inject_Z (- Z.pos mb)) with (- inject_Z (Z.pos mb))%Q; lra.
  - f_equal. symmetry. pose proof (F2Q_pos ma ea).
    destruct sa; cbn [cond_Zopp]; [apply Qcompare_lt | apply Qcompare_gt];
      change (inject_Z (- Z.pos ma)) with (- inject_Z (Z.pos ma))%Q; lra.
  - f_equal. pose proof (F2Q_pos ma ea). pose proof (F2Q_pos mb eb).
    rewrite valid_sign in Va, Vb.
    pose proof (compare_pos_finite ma ea mb eb Va Vb) as Hc.
    destruct sa, sb; cbn [cond_Zopp];
      change (inject_Z (- Z.pos ma)) with (- inject_Z (Z.pos ma))%Q;
      change (inject_Z (- Z.pos mb)) with (- inject_Z (Z.pos mb))%Q.
    + assert (forall u v, - u * v == - (u * v))%Q as Ho by (intros; ring).
      rewrite (Qcompare_comp _ _ (Ho _ _) _ _ (Ho _ _)), Qcompare_opp, <- Hc.
      destruct (ea ?= eb); reflexivity.
    + symmetry. apply Qcompare_lt. lra.
    + symmetry. apply Qcompare_gt. lra.
    + exact Hc.
Qed.

Lemma ext_compare_antisym a b : CompOpp (ext_compare a b) = ext_compare b a.
Proof.
  destruct a, b; cbn [ext_compare CompOpp]; try reflexivity.
  apply Qcompare_antisym.
Qed.

Lemma bpow_neg p : (inject_Z (Z.pow_pos 2 p) * bpow (Z.neg p) == 1)%Q.
Proof.
  change (Z.pow_pos 2 p) with (2 ^ Z.pos p). rewrite <- bpow_Z by lia.
  change (Z.neg p) with (- Z.pos p). rewrite Qmult_comm. apply bpow_inv_l.
Qed.

Lemma compare_Z_float_ext a f :
  compare_Z_float a f =
  match float_ext f with
  | Some y => Some (ext_compare (Fin (inject_Z a)) y)
  | None => None
  end.
Proof.
  destruct f as [s|s| |s m e]; cbn [compare_Z_float float_ext ext_compare V];
    try reflexivity.
  - f_equal. change 0%Q with (inject_Z 0). now rewrite Qcompare_inject_Z.
  - destruct s; reflexivity.
  - f_equal. replace (if s then Z.neg m else Z.pos m) with (cond_Zopp s (Z.pos m))
      by (destruct s; reflexivity).
    destruct e as [|p|p].
    + change (bpow 0) with 1%Q. rewrite Z.mul_1_r.
      rewrite (Qcompare_comp _ _ (Qeq_refl _) _ _ (Qmult_1_r _)).
      now rewrite Qcompare_inject_Z.
    + rewrite bpow_Z by lia.
      now rewrite <- inject_Z_mult, Qcompare_inject_Z.
    + rewrite <- Qcompare_inject_Z.
      rewrite <- (Qcompare_scale _ _ (bpow (Z.neg p))) by apply bpow_pos.
      apply Qcompare_comp; [|reflexivity].
      rewrite inject_Z_mult, <- Qmult_assoc, bpow_neg. ring.
Qed.

Lemma num_compare_ext x y :
  wf_num x = true -> wf_num y = true ->
  num_compare x y =
  match num_ext x, num_ext y with
  | Some a, Some b => Some (ext_compare a b)
  | _, _ => None
  end.
Proof.
  intros Wx Wy. destruct x as [a|a], y as [b|b]; cbn [num_compare num_ext].
  - cbn [ext_compare]. now rewrite Qcompare_inject_Z.
  - apply compare_Z_float_ext.
  - rewrite compare_Z_float_ext. destruct (float_ext a); [|reflexivity].
    cbn [option_map]. now rewrite ext_compare_antisym.
  - now apply SFcompare_ext.
Qed.


Lemma ext_le_compare a b : ext_le a b <-> ext_compare a b <> Gt.
Proof.
  destruct a, b; cbn [ext_le ext_compare]; try (split; [discriminate | trivial]);
    try (split; [contradiction | congruence]).
  rewrite Qle_alt. reflexivity.
Qed.

Lemma ext_le_trans a b c : ext_le a b -> ext_le b c -> ext_le a c.
Proof.
  destruct a, b, c; cbn [ext_le]; trivial; try contradiction.
  apply Qle_trans.
Qed.


Lemma num_le_ext x y :
  wf_num x = true -> wf_num y = true ->
  num_le x y = true <->
  exists a b, num_ext x = Some a /\ num_ext y = Some b /\ ext_le a b.
Proof.
  intros Wx Wy. unfold num_le. rewrite (num_compare_ext x y Wx Wy).
  destruct (num_ext x) as [a|], (num_ext y) as [b|].
  - split.
    + intros H. exists a, b. repeat split. apply ext_le_compare.
      destruct (ext_compare a b); congruence.
    + intros (a' & b' & Ea & Eb & H). injection Ea as <-. injection Eb as <-.
      apply ext_le_compare in H. destruct (ext_compare a b); congruence.
  - split; [discriminate | intros (? & ? & _ & ? & _); discriminate].
  - split; [discriminate | intros (? & ? & ? & _); discriminate].
  - split; [discriminate | intros (? & ? & ? & _); discriminate].
Qed.


Lemma num_gt_ext x y :
  wf_num x = true -> wf_num y = true ->
  num_gt x y = true ->
  exists a b, num_ext x = Some a /\ num_ext y = Some b /\ ext_le b a /\ ~ ext_le a b.
Proof.
  intros Wx Wy. unfold num_gt. rewrite (num_compare_ext x y Wx Wy).
  destruct (num_ext x) as [a|], (num_ext y) as [b|]; try discriminate.
  intros H. exists a, b. repeat split.
  - apply ext_le_compare. rewrite <- ext_compare_antisym.
    destruct (ext_compare a b); discriminate.
  - intros L. apply ext_le_compare in L. destruct (ext_compare a b); congruence.
Qed.

Lemma num_gt_le x y : num_gt x y = true -> num_le x y = false.
Proof. unfold num_gt, num_le. destruct (num_compare x y) as [[]|]; congruence. Qed.

(** *** Nonnegative values *)

Lemma top_unfold : (top == bpow 1024)%Q.
Proof. reflexivity. Qed.

Lemma valid_lt_top m e : F64.valid (S754_finite false m e) = true ->
  (inject_Z (Z.pos m) * bpow e < top)%Q.
Proof.
  intros Hv. apply valid_finite in Hv. destruct Hv as [Hc Hb].
  pose proof (Zdigits2_le_53 m e Hc).
  apply Qlt_le_trans with (bpow (53 + e)); [apply F2Q_lt_bpow; [lia|assumption]|].
  unfold top. apply bpow_le. lia.
Qed.

Lemma good_bounds r : good r -> (0 <= V r /\ V r <= top)%Q.
Proof.
  intros [N Hv]. pose proof top_pos.
  destruct r as [[]|[]| |[] m e]; try contradiction; cbn [V cond_Zopp]; try lra.
  pose proof (F2Q_pos m e). pose proof (valid_lt_top m e Hv). lra.
Qed.

Lemma good_fin_lt r : good r -> fin r -> (V r < top)%Q.
Proof.
  intros [N Hv] F. pose proof top_pos.
  destruct r as [[]|[]| |[] m e]; try contradiction; cbn [V cond_Zopp]; try lra.
  now apply valid_lt_top.
Qed.

Lemma good_lt_fin r : good r -> (V r < top)%Q -> fin r.
Proof.
  intros [N Hv] L.
  destruct r as [[]|[]| |[] m e]; try contradiction; cbn [V fin] in *; trivial; lra.
Qed.

Lemma good_nonzero r : good r -> F64.is_zero r = false -> (0 < V r)%Q.
Proof.
  intros [N Hv] Z. pose proof top_pos.
  destruct r as [[]|[]| |[] m e]; try contradiction; try discriminate; cbn [V cond_Zopp]; try lra.
  apply F2Q_pos.
Qed.

Lemma rounds_to_good x r : rounds_to x r -> good r.
Proof. intros (N & Hv & _). now split. Qed.

Lemma good_inf : good (S754_infinity false).
Proof. split; [exact I | reflexivity]. Qed.

Lemma good_zero : good (S754_zero false).
Proof. split; [exact I | reflexivity]. Qed.

(** A nonnegative value is infinite, or finite. *)
Lemma good_cases r : good r -> r = S754_infinity false \/ fin r.
Proof.
  intros [N _]. destruct r as [[]|[]| |[] m e]; try contradiction; cbn [fin]; auto.
Qed.

(** What a positive argument is. *)
Lemma float_ext_pos f q :
  F64.valid f = true -> float_ext f = Some (Fin q) -> (0 < q)%Q ->
  exists m e, f = S754_finite false m e /\ (q == V f)%Q.
Proof.
  intros Hv E Hq. destruct f as [s|s| |s m e]; cbn [float_ext] in E; try discriminate.
  - assert (q = V (S754_zero s)) as -> by congruence. cbn [V] in Hq. lra.
  - destruct s; discriminate.
  - assert (q = V (S754_finite s m e)) as -> by congruence.
    destruct s; cbn [V cond_Zopp] in *.
    + exfalso. pose proof (F2Q_pos m e).
      change (inject_Z (- Z.pos m)) with (- inject_Z (Z.pos m))%Q in Hq. lra.
    + exists m, e. split; reflexivity.
Qed.

(** *** Monotonicity of the arithmetic on nonnegative values *)

Lemma Qdiv_le_mono a1 b1 a2 b2 :
  (0 <= a1 -> a1 <= a2 -> 0 < b2 -> b2 <= b1 -> a1 / b1 <= a2 / b2)%Q.
Proof.
  intros A0 A B0 B.
  assert (0 < b1)%Q as B1 by lra.
  apply Qle_shift_div_l; [assumption|].
  unfold Qdiv. rewrite <- Qmult_assoc, (Qmult_comm (/ b1)), Qmult_assoc.
  apply Qle_shift_div_r; [assumption|].
  apply Qmult_le_compat_nonneg; split; lra.
Qed.

Lemma Qdiv_nonneg a b : (0 <= a -> 0 < b -> 0 <= a / b)%Q.
Proof.
  intros A B. apply Qle_shift_div_l; [assumption|]. lra.
Qed.

Lemma mul_good a b :
  good a -> good b -> F64.mul a b <> S754_nan -> good (F64.mul a b).
Proof.
  intros Ga Gb N.
  destruct (good_cases a Ga) as [->|Fa]; destruct (good_cases b Gb) as [->|Fb].
  - apply good_inf.
  - destruct Gb as [Nb _].
    destruct b as [[]|[]| |[] m e]; try contradiction; try (exfalso; now apply N).
    apply good_inf.
  - destruct Ga as [Na _].
    destruct a as [[]|[]| |[] m e]; try contradiction; try (exfalso; now apply N).
    apply good_inf.
  - destruct Ga, Gb. eapply rounds_to_good, mul_rounds; eassumption.
Qed.

Lemma mul_mono a1 b1 a2 b2 :
  good a1 -> good b1 -> good a2 -> good b2 ->
  (V a1 <= V a2)%Q -> (V b1 <= V b2)%Q ->
  F64.mul a1 b1 <> S754_nan -> F64.mul a2 b2 <> S754_nan ->
  (V (F64.mul a1 b1) <= V (F64.mul a2 b2))%Q.
Proof.
  intros Ga1 Gb1 Ga2 Gb2 La Lb N1 N2.
  pose proof (mul_good a1 b1 Ga1 Gb1 N1) as G1.
  pose proof (good_bounds _ G1) as [_ U1].
  pose proof (good_bounds _ Ga1) as [A0 _]. pose proof (good_bounds _ Gb1) as [B0 _].
  destruct (good_cases a2 Ga2) as [->|Fa2]; destruct (good_cases b2 Gb2) as [->|Fb2].
  - exact U1.
  - destruct Gb2 as [Nb _].
    destruct b2 as [[]|[]| |[] m e]; try contradiction; try (exfalso; now apply N2).
    exact U1.
  - destruct Ga2 as [Na _].
    destruct a2 as [[]|[]| |[] m e]; try contradiction; try (exfalso; now apply N2).
    exact U1.
  - pose proof (good_fin_lt _ Ga2 Fa2). pose proof (good_fin_lt _ Gb2 Fb2).
    assert (fin a1) as Fa1 by (apply good_lt_fin; [assumption | lra]).
    assert (fin b1) as Fb1 by (apply good_lt_fin; [assumption | lra]).
    destruct Ga1, Gb1, Ga2, Gb2.
    apply (rounds_to_mono (V a1 * V b1) _ (V a2 * V b2)).
    + now apply mul_rounds.
    + now apply mul_rounds.
    + now apply Qmult_le_0_compat.
    + apply Qmult_le_compat_nonneg; split; assumption.
Qed.

Lemma div_good a b :
  good a -> good b -> F64.is_zero b = false -> F64.div a b <> S754_nan ->
  good (F64.div a b).
Proof.
  intros Ga Gb Z N. pose proof (good_nonzero b Gb Z) as Pb.
  destruct (good_cases a Ga) as [->|Fa]; destruct (good_cases b Gb) as [->|Fb].
  - exfalso. now apply N.
  - destruct Gb as [Nb _].
    destruct b as [[]|[]| |[] m e]; try contradiction; try discriminate. apply good_inf.
  - destruct Ga as [Na _].
    destruct a as [[]|[]| |[] m e]; try contradiction; apply good_zero.
  - destruct Ga, Gb. eapply rounds_to_good, div_rounds; try eassumption.
    intros ->. contradiction.
Qed.

Lemma div_mono a1 b1 a2 b2 :
  good a1 -> good b1 -> good a2 -> good b2 ->
  F64.is_zero b1 = false -> F64.is_zero b2 = false ->
  (V a1 <= V a2)%Q -> (V b2 <= V b1)%Q ->
  F64.div a1 b1 <> S754_nan -> F64.div a2 b2 <> S754_nan ->
  (V (F64.div a1 b1) <= V (F64.div a2 b2))%Q.
Proof.
  intros Ga1 Gb1 Ga2 Gb2 Z1 Z2 La Lb N1 N2.
  pose proof (div_good a1 b1 Ga1 Gb1 Z1 N1) as G1.
  pose proof (good_bounds _ G1) as [_ U1].
  pose proof (div_good a2 b2 Ga2 Gb2 Z2 N2) as G2.
  pose proof (good_bounds _ G2) as [L2 _].
  pose proof (good_bounds _ Ga1) as [A0 _].
  pose proof (good_nonzero b1 Gb1 Z1) as Pb1. pose proof (good_nonzero b2 Gb2 Z2) as Pb2.
  destruct (good_cases a2 Ga2) as [->|Fa2]; destruct (good_cases b2 Gb2) as [->|Fb2].
  - exfalso. now apply N2.
  - destruct Gb2 as [Nb _].
    destruct b2 as [[]|[]| |[] m e]; try contradiction; try discriminate. exact U1.
  - (* both divisors are infinite *)
    assert (b1 = S754_infinity false) as ->.
    { destruct (good_cases b1 Gb1) as [->|Fb1]; [reflexivity|].
      pose proof (good_fin_lt _ Gb1 Fb1). cbn [V] in Lb. lra. }
    pose proof (good_fin_lt _ Ga2 Fa2).
    assert (fin a1) as Fa1 by (apply good_lt_fin; [assumption | lra]).
    destruct Ga1 as [Na1 _], Ga2 as [Na2 _].
    destruct a1 as [[]|[]| |[] m1 e1]; try contradiction;
    destruct a2 as [[]|[]| |[] m2 e2]; try contradiction; cbn [F64.div SFdiv xorb V]; lra.
  - pose proof (good_fin_lt _ Ga2 Fa2).
    assert (fin a1) as Fa1 by (apply good_lt_fin; [assumption | lra]).
    destruct (good_cases b1 Gb1) as [->|Fb1].
    + destruct Ga1 as [Na1 _].
      destruct a1 as [[]|[]| |[] m1 e1]; try contradiction; cbn [F64.div SFdiv xorb V]; exact L2.
    + destruct Ga1, Gb1, Ga2, Gb2.
      apply (rounds_to_mono (V a1 / V b1) _ (V a2 / V b2)).
      * apply div_rounds; trivial. intros ->. contradiction.
      * apply div_rounds; trivial. intros ->. contradiction.
      * now apply Qdiv_nonneg.
      * now apply Qdiv_le_mono.
Qed.

Lemma sub_good a b :
  good a -> good b -> fin b -> (V b <= V a)%Q -> good (F64.sub a b).
Proof.
  intros Ga Gb Fb L.
  destruct (good_cases a Ga) as [->|Fa].
  - destruct Gb as [Nb _].
    destruct b as [[]|[]| |[] m e]; try contradiction; apply good_inf.
  - destruct Ga, Gb. eapply rounds_to_good, sub_rounds; eassumption.
Qed.

Lemma sub_mono a1 b1 a2 b2 :
  good a1 -> good b1 -> good a2 -> good b2 -> fin b1 -> fin b2 ->
  (V b1 <= V a1)%Q -> (V a1 <= V a2)%Q -> (V b2 <= V b1)%Q ->
  (V (F64.sub a1 b1) <= V (F64.sub a2 b2))%Q.
Proof.
  intros Ga1 Gb1 Ga2 Gb2 Fb1 Fb2 L1 La Lb.
  pose proof (sub_good a1 b1 Ga1 Gb1 Fb1 L1) as G1.
  pose proof (good_bounds _ G1) as [_ U1].
  destruct (good_cases a2 Ga2) as [->|Fa2].
  - destruct Gb2 as [Nb _].
    destruct b2 as [[]|[]| |[] m e]; try contradiction; exact U1.
  - pose proof (good_fin_lt _ Ga2 Fa2).
    assert (fin a1) as Fa1 by (apply good_lt_fin; [assumption | lra]).
    destruct Ga1, Gb1, Ga2, Gb2.
    apply (rounds_to_mono (V a1 - V b1) _ (V a2 - V b2)).
    + now apply sub_rounds.
    + apply sub_rounds; trivial. lra.
    + lra.
    + lra.
Qed.

Lemma sq_not_nan a : good a -> F64.mul a a <> S754_nan.
Proof.
  intros Ga. destruct (good_cases a Ga) as [->|Fa]; [discriminate|].
  destruct Ga. pose proof (mul_rounds a a Fa Fa H H H0 H0) as (N & _).
  intros E. rewrite E in N. exact N.
Qed.

Lemma mul_fin_not_nan a b : good a -> fin a -> F64.is_zero a = false -> good b ->
  F64.mul a b <> S754_nan.
Proof.
  intros Ga Fa Za Gb. destruct (good_cases b Gb) as [->|Fb].
  - destruct Ga as [Na _].
    destruct a as [[]|[]| |[] m e]; try contradiction; discriminate.
  - destruct Ga, Gb. pose proof (mul_rounds a b Fa Fb H H1 H0 H2) as (N & _).
    intros E. rewrite E in N. exact N.
Qed.

Lemma pow2_inv x y : pow2 x = Ok y ->
  y = F64.mul x x /\ (F64.is_finite_nonzero x = true -> F64.is_inf y = false).
Proof.
  unfold pow2. destruct (F64.is_finite_nonzero x) eqn:E1; cbn [andb].
  - destruct (F64.is_inf (F64.mul x x)) eqn:E2; [discriminate|].
    intros H. injection H as <-. auto.
  - intros H. injection H as <-. split; [reflexivity | discriminate].
Qed.

Lemma float_div_inv x y z : float_div x y = Ok z -> F64.is_zero y = false /\ z = F64.div x y.
Proof.
  unfold float_div. destruct (F64.is_zero y); [discriminate|].
  intros H. injection H as <-. auto.
Qed.

Lemma float_to_int_inv x n : float_to_int x = Ok n ->
  n = F64.trunc x /\ x <> S754_nan /\ F64.is_inf x = false.
Proof.
  destruct x; cbn [float_to_int]; try discriminate; intros H; injection H as <-;
    repeat split; discriminate.
Qed.

Lemma calc_body_inv t r c m l v :
  calc_body t r c m l = Ok v ->
  exists a ca tm ft mm lps,
    truediv r (Int 100) = Ok a /\ pow2 a = Ok (F64.mul a a) /\
    truediv c (Int 100) = Ok ca /\ pow2 ca = Ok (F64.mul ca ca) /\
    truediv t (Int 1000) = Ok tm /\ int_mul_float 4 tm = Ok ft /\
    F64.is_zero ft = false /\
    truediv m (Int 100) = Ok mm /\ F64.is_zero mm = false /\
    float_to_int (sets_of a (F64.mul ca ca) ft mm) = Ok (F64.trunc (sets_of a (F64.mul ca ca) ft mm)) /\
    py_int l = Ok lps /\
    v = F64.trunc (sets_of a (F64.mul ca ca) ft mm) * lps.
Proof.
  unfold calc_body, bind.
  destruct (truediv r (Int 100)) as [a|] eqn:Ea; [|discriminate].
  destruct (pow2 a) as [a2|] eqn:Ea2; [|discriminate].
  destruct (truediv c (Int 100)) as [ca|] eqn:Eca; [|discriminate].
  destruct (pow2 ca) as [ca2|] eqn:Eca2; [|discriminate].
  destruct (truediv t (Int 1000)) as [tm|] eqn:Etm; [|discriminate].
  destruct (int_mul_float 4 tm) as [ft|] eqn:Eft; [|discriminate].
  destruct (float_div (F64.sub a2 ca2) ft) as [q|] eqn:Eq; [|discriminate].
  destruct (truediv m (Int 100)) as [mm|] eqn:Emm; [|discriminate].
  destruct (float_div (F64.mul F64.pi q) mm) as [s|] eqn:Es; [|discriminate].
  destruct (float_to_int s) as [si|] eqn:Esi; [|discriminate].
  destruct (py_int l) as [lps|] eqn:El; [|discriminate].
  intros H. injection H as <-.
  destruct (pow2_inv _ _ Ea2) as [-> _]. destruct (pow2_inv _ _ Eca2) as [-> _].
  apply float_div_inv in Eq. destruct Eq as [Zft ->].
  apply float_div_inv in Es. destruct Es as [Zmm ->].
  destruct (float_to_int_inv _ _ Esi) as [-> _].
  exists a, ca, tm, ft, mm, lps. unfold sets_of. repeat split; trivial.
Qed.

(** *** The constants of the formula *)

Lemma int_to_float_100 : int_to_float 100 = Ok (S754_finite false 7036874417766400 (-46)).
Proof. reflexivity. Qed.

Lemma int_to_float_1000 : int_to_float 1000 = Ok (S754_finite false 8796093022208000 (-43)).
Proof. reflexivity. Qed.

Lemma int_to_float_4 : int_to_float 4 = Ok (S754_finite false 4503599627370496 (-50)).
Proof. reflexivity. Qed.

Lemma V_100 : (inject_Z 7036874417766400 * bpow (-46) == 100)%Q.
Proof. reflexivity. Qed.

Lemma V_1000 : (inject_Z 8796093022208000 * bpow (-43) == 1000)%Q.
Proof. reflexivity. Qed.

Lemma V_4 : (inject_Z 4503599627370496 * bpow (-50) == 4)%Q.
Proof. reflexivity. Qed.

(** *** Division of an argument by an int constant *)

Lemma truediv_const_fin x c mc ec a v :
  wf_num x = true ->
  int_to_float (Z.pos c) = Ok (S754_finite false mc ec) ->
  (inject_Z (Z.pos mc) * bpow ec == inject_Z (Z.pos c))%Q ->
  num_ext x = Some (Fin v) -> (0 < v)%Q ->
  truediv x (Int (Z.pos c)) = Ok a ->
  rounds_to (v / inject_Z (Z.pos c)) a /\ fin a.
Proof.
  intros W Hc Vc E Pv H.
  destruct x as [n|f]; cbn [truediv num_ext wf_num] in *.
  - assert (v = inject_Z n) as -> by congruence.
    assert (0 < n) as Pn by (change 0%Q with (inject_Z 0) in Pv; now rewrite <- Zlt_Qlt in Pv).
    destruct n as [|p|p]; try lia.
    cbn [int_true_divide Z.ltb Z.compare Z.abs Z.to_pos] in H.
    destruct (F64.is_inf (F64.div (S754_finite false p 0) (S754_finite false c 0))) eqn:I;
      [discriminate|].
    injection H as <-.
    assert (rounds_to (inject_Z (Z.pos p) / inject_Z (Z.pos c))
              (F64.div (S754_finite false p 0) (S754_finite false c 0))) as R.
    { eapply rounds_to_compat; [|apply div_finite_rounds].
      change (bpow 0) with 1%Q. now rewrite !Qmult_1_r. }
    split; [exact R|].
    destruct (good_cases _ (rounds_to_good _ _ R)) as [Ei|F]; [|exact F].
    rewrite Ei in I. discriminate.
  - destruct (float_ext_pos f v W E Pv) as (m & e & -> & Ev).
    rewrite Hc in H. cbn [bind float_div F64.is_zero] in H. injection H as <-.
    assert (rounds_to (v / inject_Z (Z.pos c))
              (F64.div (S754_finite false m e) (S754_finite false mc ec))) as R.
    { eapply rounds_to_compat; [|apply div_finite_rounds].
      rewrite Vc. cbn [V cond_Zopp] in Ev. now rewrite Ev. }
    split; [exact R|].
    (* the quotient is at most the dividend *)
    apply good_lt_fin; [eapply rounds_to_good; eassumption|].
    apply Qle_lt_trans with (V (S754_finite false m e)); [|now apply valid_lt_top].
    apply (rounds_to_mono (v / inject_Z (Z.pos c)) _ (V (S754_finite false m e))).
    + exact R.
    + apply rounds_to_self; [exact I | exact I | exact W].
    + apply Qdiv_nonneg; [lra|]. change 0%Q with (inject_Z 0). now rewrite <- Zlt_Qlt.
    + rewrite <- Ev. apply Qle_shift_div_r.
      * change 0%Q with (inject_Z 0). now rewrite <- Zlt_Qlt.
      * assert (1 <= inject_Z (Z.pos c))%Q by (change 1%Q with (inject_Z 1); rewrite <- Zle_Qle; lia).
        nra.
Qed.

Lemma truediv_const_inf x c mc ec a :
  int_to_float (Z.pos c) = Ok (S754_finite false mc ec) ->
  num_ext x = Some PosInf ->
  truediv x (Int (Z.pos c)) = Ok a ->
  a = S754_infinity false.
Proof.
  intros Hc E H. destruct x as [n|f]; cbn [num_ext] in E; [discriminate|].
  destruct f as [s|[]| |s m e]; cbn [float_ext] in E; try discriminate.
  cbn [truediv] in H. rewrite Hc in H. cbn [bind float_div F64.is_zero] in H.
  now injection H as <-.
Qed.

(** Quotients of a positive argument by a constant. *)
Lemma truediv_const_good x c mc ec a q :
  wf_num x = true ->
  int_to_float (Z.pos c) = Ok (S754_finite false mc ec) ->
  (inject_Z (Z.pos mc) * bpow ec == inject_Z (Z.pos c))%Q ->
  num_ext x = Some q -> ~ ext_le q (Fin 0) ->
  truediv x (Int (Z.pos c)) = Ok a ->
  good a.
Proof.
  intros W Hc Vc E P H. destruct q as [|v|].
  - exfalso. apply P. exact I.
  - cbn [ext_le] in P.
    assert (0 < v)%Q as Pv by (destruct (Qlt_le_dec 0 v); [assumption | contradiction]).
    eapply rounds_to_good. eapply truediv_const_fin; eassumption.
  - rewrite (truediv_const_inf x c mc ec a Hc E H). apply good_inf.
Qed.

Lemma truediv_const_mono x1 x2 c mc ec a1 a2 q1 q2 :
  wf_num x1 = true -> wf_num x2 = true ->
  int_to_float (Z.pos c) = Ok (S754_finite false mc ec) ->
  (inject_Z (Z.pos mc) * bpow ec == inject_Z (Z.pos c))%Q ->
  num_ext x1 = Some q1 -> num_ext x2 = Some q2 ->
  ~ ext_le q1 (Fin 0) -> ext_le q1 q2 ->
  truediv x1 (Int (Z.pos c)) = Ok a1 -> truediv x2 (Int (Z.pos c)) = Ok a2 ->
  (V a1 <= V a2)%Q.
Proof.
  intros W1 W2 Hc Vc E1 E2 P1 L H1 H2.
  assert (~ ext_le q2 (Fin 0)) as P2.
  { intros L2. apply P1. eapply ext_le_trans; eassumption. }
  pose proof (truediv_const_good x1 c mc ec a1 q1 W1 Hc Vc E1 P1 H1) as G1.
  destruct q2 as [|v2|].
  - exfalso. apply P2. exact I.
  - destruct q1 as [|v1|]; cbn [ext_le] in L, P1, P2; try contradiction.
    assert (0 < v1)%Q as Pv1 by (destruct (Qlt_le_dec 0 v1); [assumption | contradiction]).
    assert (0 < v2)%Q as Pv2 by lra.
    destruct (truediv_const_fin x1 c mc ec a1 v1 W1 Hc Vc E1 Pv1 H1) as [R1 _].
    destruct (truediv_const_fin x2 c mc ec a2 v2 W2 Hc Vc E2 Pv2 H2) as [R2 _].
    assert (0 < inject_Z (Z.pos c))%Q by (change 0%Q with (inject_Z 0); now rewrite <- Zlt_Qlt).
    apply (rounds_to_mono _ _ _ _ R1 R2).
    + apply Qdiv_nonneg; lra.
    + apply Qdiv_le_mono; lra.
  - rewrite (truediv_const_inf x2 c mc ec a2 Hc E2 H2). apply good_bounds. exact G1.
Qed.

Lemma good_pi : good F64.pi.
Proof. split; [exact I | reflexivity]. Qed.





(** *** What the guards establish *)

Lemma num_ext_Int0 : num_ext (Int 0) = Some (Fin 0).
Proof. reflexivity. Qed.








(** ** The formula of the specification, in binary64 arithmetic *)

Lemma calc_unguarded t r c m l :
  num_le t (Int 0) = false -> num_le r (Int 0) = false -> num_le c (Int 0) = false ->
  num_le m (Int 0) = false -> num_le l (Int 0) = false -> num_le r c = false ->
  calc_labels_per_roll (Some t) (Some r) (Some c) (Some m) (Some l) =
  try_except (calc_body t r c m l) 0.
Proof.
  intros Ht Hr Hc Hm Hl Hrc. unfold calc_labels_per_roll. cbn [none_or_le0].
  now rewrite Ht, Hr, Hc, Hm, Hl, Hrc.
Qed.


Lemma ge1_not_le0 l : wf_num l = true -> num_le (Int 1) l = true -> num_le l (Int 0) = false.
Proof.
  intros W H. apply (num_le_ext (Int 1) l eq_refl W) in H.
  destruct H as (a & b & Ea & Eb & L). cbn [num_ext] in Ea. injection Ea as <-.
  destruct (num_le l (Int 0)) eqn:E; [|reflexivity].
  apply (num_le_ext l (Int 0) W eq_refl) in E.
  destruct E as (b' & z & Eb' & Ez & L'). cbn [num_ext] in Ez. injection Ez as <-.
  assert (b' = b) as -> by congruence.
  pose proof (ext_le_trans _ _ _ L L') as T. cbn [ext_le] in T.
  change (inject_Z 1) with 1%Q in T. change (inject_Z 0) with 0%Q in T. lra.
Qed.


(** C2: a missing or non-positive argument, a roll no larger than the core,
    or an arithmetic exception in the computation, each give 0. *)
Theorem calc_zero_on_guard_or_exception (t r c m l : option num) :
  (none_or_le0 t || none_or_le0 r || none_or_le0 c || none_or_le0 m || none_or_le0 l
   || match r, c with Some r', Some c' => num_le r' c' | _, _ => false end
   || takes_except t r c m l) = true ->
  calc_labels_per_roll t r c m l = 0.
Proof.
  intros H. unfold calc_labels_per_roll.
  destruct (none_or_le0 t || none_or_le0 r || none_or_le0 c || none_or_le0 m || none_or_le0 l)
    eqn:G; [reflexivity|].
  cbn [orb] in H.
  destruct t as [t|], r as [r|], c as [c|], m as [m|], l as [l|]; try reflexivity.
  destruct (num_le r c) eqn:Grc; [reflexivity|].
  cbn [orb] in H. unfold takes_except in H. rewrite Grc in H.
  destruct (calc_body t r c m l); [|reflexivity].
  rewrite andb_false_r in H. discriminate.
Qed.

Lemma calc_zero_on_guard_or_exception_witness :
  calc_labels_per_roll (Some (Int 0)) (Some ex_roll) None (Some ex_mark) (Some ex_lps) = 0
  /\ calc_labels_per_roll (Some ex_thickness) (Some ex_huge) (Some ex_core)
       (Some ex_mark) (Some ex_lps) = 0.
Proof.
  split; apply calc_zero_on_guard_or_exception; vm_compute; reflexivity.
Defined.







(** *** The code against the formula *)






Lemma good_fin_closed x :
  (match x with S754_finite false _ _ => true | _ => false end && F64.valid x) = true ->
  good x /\ fin x /\ F64.is_zero x = false.
Proof.
  destruct x as [|?| |[] m e]; cbn [andb]; try discriminate.
  intros H. repeat split; trivial.
Qed.

Lemma div_fin_not_nan a b :
  good a -> fin a -> good b -> F64.is_zero b = false -> F64.div a b <> S754_nan.
Proof.
  intros Ga Fa Gb Zb. pose proof (good_nonzero b Gb Zb) as Pb.
  destruct (good_cases b Gb) as [->|Fb].
  - destruct Ga as [Na _].
    destruct a as [[]|[]| |[] m e]; try contradiction; discriminate.
  - destruct Ga as [Na Va], Gb as [Nb Vb].
    assert (b <> S754_infinity false) as Ib by (intros ->; contradiction).
    pose proof (div_rounds a b Fa Na Nb Pb Ib) as (N & _).
    intros E. rewrite E in N. exact N.
Qed.

Lemma pos_not_zero x : good x -> (0 < V x)%Q -> F64.is_zero x = false.
Proof.
  intros [N _] P. destruct x as [[]|[]| |[] m e]; try contradiction; try reflexivity.
  cbn [V] in P. lra.
Qed.

Lemma le_fin x h : good x -> good h -> fin h -> (V x <= V h)%Q -> fin x.
Proof.
  intros Gx Gh Fh L. apply good_lt_fin; [assumption|].
  pose proof (good_fin_lt h Gh Fh). lra.
Qed.

Lemma fin_not_inf x : fin x -> F64.is_inf x = false.
Proof. destruct x; cbn; trivial; contradiction. Qed.

Lemma fin_good_not_nan x : good x -> x <> S754_nan.
Proof. intros [N _] ->. exact N. Qed.

(** The run returns when no step raises. *)
Lemma calc_body_forward t r c m l a ca tm mm lps :
  truediv r (Int 100) = Ok a -> F64.is_inf (F64.mul a a) = false ->
  truediv c (Int 100) = Ok ca -> F64.is_inf (F64.mul ca ca) = false ->
  truediv t (Int 1000) = Ok tm -> F64.is_zero (F64.mul c4 tm) = false ->
  truediv m (Int 100) = Ok mm -> F64.is_zero mm = false ->
  fin (sets_of a (F64.mul ca ca) (F64.mul c4 tm) mm) ->
  py_int l = Ok lps ->
  calc_body t r c m l =
  Ok (F64.trunc (sets_of a (F64.mul ca ca) (F64.mul c4 tm) mm) * lps).
Proof.
  intros Ha Ia Hca Ica Htm Zft Hmm Zmm Fs Hl.
  unfold calc_body. rewrite Ha. cbn [bind].
  unfold pow2. rewrite Ia, andb_false_r. cbn [bind].
  rewrite Hca. cbn [bind]. rewrite Ica, andb_false_r. cbn [bind].
  rewrite Htm. cbn [bind]. unfold int_mul_float. rewrite int_to_float_4. cbn [bind].
  fold c4. unfold float_div at 1. rewrite Zft. cbn [bind].
  rewrite Hmm. cbn [bind]. unfold float_div. rewrite Zmm. cbn [bind].
  fold (sets_of a (F64.mul ca ca) (F64.mul c4 tm) mm).
  destruct (sets_of a (F64.mul ca ca) (F64.mul c4 tm) mm) eqn:E; try contradiction;
    cbn [float_to_int bind]; rewrite Hl; reflexivity.
Qed.

(** Values of arguments in the ordinary range. *)
Lemma in_range_ext x :
  wf_num x = true -> in_range x = true ->
  exists v, num_ext x = Some (Fin v) /\ (V range_lo <= v)%Q /\ (v <= V range_hi)%Q.
Proof.
  intros W H. unfold in_range in H. apply andb_prop in H. destruct H as [H1 H2].
  apply (num_le_ext (Float range_lo) x eq_refl W) in H1.
  apply (num_le_ext x (Float range_hi) W eq_refl) in H2.
  destruct H1 as (a & b & Ea & Eb & L1). destruct H2 as (b' & c & Eb' & Ec & L2).
  assert (b' = b) as -> by congruence.
  cbn [num_ext float_ext range_lo range_hi] in Ea, Ec.
  injection Ea as <-. injection Ec as <-.
  destruct b as [|v|]; cbn [ext_le] in L1, L2; try contradiction.
  exists v. auto.
Qed.

Lemma range_lo_pos : (0 < V range_lo)%Q.
Proof. apply F2Q_pos. Qed.

Lemma truediv_const_ok x c mc ec v h :
  wf_num x = true ->
  int_to_float (Z.pos c) = Ok (S754_finite false mc ec) ->
  (inject_Z (Z.pos mc) * bpow ec == inject_Z (Z.pos c))%Q ->
  num_ext x = Some (Fin v) -> (0 < v)%Q ->
  good h -> fin h -> (v <= V h)%Q ->
  exists a, truediv x (Int (Z.pos c)) = Ok a.
Proof.
  intros W Hc Vc E Pv Gh Fh L.
  destruct x as [n|f]; cbn [truediv num_ext wf_num] in *.
  - assert (v = inject_Z n) as -> by congruence.
    assert (0 < n) as Pn by (change 0%Q with (inject_Z 0) in Pv; now rewrite <- Zlt_Qlt in Pv).
    destruct n as [|p|p]; try lia.
    cbn [int_true_divide Z.ltb Z.compare Z.abs Z.to_pos].
    assert (rounds_to (inject_Z (Z.pos p) / inject_Z (Z.pos c))
              (F64.div (S754_finite false p 0) (S754_finite false c 0))) as R.
    { eapply rounds_to_compat; [|apply div_finite_rounds].
      change (bpow 0) with 1%Q. now rewrite !Qmult_1_r. }
    assert (fin (F64.div (S754_finite false p 0) (S754_finite false c 0))) as F.
    { apply (le_fin _ h); trivial; [eapply rounds_to_good; eassumption|].
      destruct Gh as [Nh Vh].
      apply (rounds_to_mono _ _ (V h) h R (rounds_to_self h Fh Nh Vh)).
      - apply Qdiv_nonneg; [lra|]. change 0%Q with (inject_Z 0). now rewrite <- Zlt_Qlt.
      - apply Qle_trans with (inject_Z (Z.pos p)); [|assumption].
        apply Qle_shift_div_r.
        + change 0%Q with (inject_Z 0). now rewrite <- Zlt_Qlt.
        + assert (1 <= inject_Z (Z.pos c))%Q
            by (change 1%Q with (inject_Z 1); rewrite <- Zle_Qle; lia).
          nra. }
    rewrite (fin_not_inf _ F). eauto.
  - rewrite Hc. cbn [bind float_div F64.is_zero]. eauto.
Qed.

Ltac closed_float := apply good_fin_closed; vm_compute; reflexivity.

Lemma closed_range_lo : good range_lo /\ fin range_lo /\ F64.is_zero range_lo = false.
Proof. closed_float. Qed.
Lemma closed_range_hi : good range_hi /\ fin range_hi /\ F64.is_zero range_hi = false.
Proof. closed_float. Qed.
Lemma closed_c4 : good c4 /\ fin c4 /\ F64.is_zero c4 = false.
Proof. closed_float. Qed.
Lemma closed_m_lo : good m_lo /\ fin m_lo /\ F64.is_zero m_lo = false.
Proof. closed_float. Qed.
Lemma closed_m_hi : good m_hi /\ fin m_hi /\ F64.is_zero m_hi = false.
Proof. closed_float. Qed.
Lemma closed_sq_hi : good sq_hi /\ fin sq_hi /\ F64.is_zero sq_hi = false.
Proof. closed_float. Qed.
Lemma closed_t_lo : good t_lo /\ fin t_lo /\ F64.is_zero t_lo = false.
Proof. closed_float. Qed.
Lemma closed_ft_lo : good ft_lo /\ fin ft_lo /\ F64.is_zero ft_lo = false.
Proof. closed_float. Qed.
Lemma closed_q_hi : good q_hi /\ fin q_hi /\ F64.is_zero q_hi = false.
Proof. closed_float. Qed.
Lemma closed_film_hi : good film_hi /\ fin film_hi /\ F64.is_zero film_hi = false.
Proof. closed_float. Qed.
Lemma closed_sets_hi : good sets_hi /\ fin sets_hi /\ F64.is_zero sets_hi = false.
Proof. closed_float. Qed.

Lemma sub_sq_hi_zero : F64.sub sq_hi (S754_zero false) = sq_hi.
Proof. vm_compute. reflexivity. Qed.

Lemma truediv_lo_100 : truediv (Float range_lo) (Int 100) = Ok m_lo.
Proof. vm_compute. reflexivity. Qed.
Lemma truediv_hi_100 : truediv (Float range_hi) (Int 100) = Ok m_hi.
Proof. vm_compute. reflexivity. Qed.
Lemma truediv_lo_1000 : truediv (Float range_lo) (Int 1000) = Ok t_lo.
Proof. vm_compute. reflexivity. Qed.

Lemma sq_hi_eq : sq_hi = F64.mul m_hi m_hi.
Proof. reflexivity. Qed.
Lemma ft_lo_eq : ft_lo = F64.mul c4 t_lo.
Proof. reflexivity. Qed.
Lemma q_hi_eq : q_hi = F64.div sq_hi ft_lo.
Proof. reflexivity. Qed.
Lemma film_hi_eq : film_hi = F64.mul F64.pi q_hi.
Proof. reflexivity. Qed.
Lemma sets_hi_eq : sets_hi = F64.div film_hi m_lo.
Proof. reflexivity. Qed.
Lemma num_ext_lo : num_ext (Float range_lo) = Some (Fin (V range_lo)).
Proof. reflexivity. Qed.
Lemma num_ext_hi : num_ext (Float range_hi) = Some (Fin (V range_hi)).
Proof. reflexivity. Qed.
Lemma wf_lo : wf_num (Float range_lo) = true.
Proof. reflexivity. Qed.
Lemma wf_hi : wf_num (Float range_hi) = true.
Proof. reflexivity. Qed.

Lemma pos_ext_not_le0 x v :
  wf_num x = true -> num_ext x = Some (Fin v) -> (0 < v)%Q -> num_le x (Int 0) = false.
Proof.
  intros W E P. destruct (num_le x (Int 0)) eqn:H; [|reflexivity].
  apply (num_le_ext x (Int 0) W eq_refl) in H.
  destruct H as (a & z & Ea & Ez & L). cbn [num_ext] in Ez. injection Ez as <-.
  assert (a = Fin v) as -> by congruence. cbn [ext_le] in L.
  change (inject_Z 0) with 0%Q in L. lra.
Qed.

Lemma py_int_ok l :
  wf_num l = true -> num_le (Int 1) l = true -> num_le l (Float range_hi) = true ->
  exists lps, py_int l = Ok lps.
Proof.
  intros W H1 H2. destruct l as [n|f]; cbn [py_int]; [eauto|].
  apply (num_le_ext (Float f) (Float range_hi) W eq_refl) in H2. destruct H2 as (a & b & Ea & Eb & L).
  cbn [num_ext float_ext range_hi] in Eb. injection Eb as <-.
  apply (num_le_ext (Int 1) (Float f) eq_refl W) in H1. destruct H1 as (o & a' & Eo & Ea' & L1).
  assert (a' = a) as -> by congruence. cbn [num_ext] in Eo. injection Eo as <-.
  cbn [num_ext] in Ea.
  destruct f as [s|s| |s m e]; cbn [float_ext] in Ea; cbn [float_to_int]; eauto.
  - injection Ea as <-. destruct s; cbn [ext_le] in L, L1; contradiction.
  - discriminate.
Qed.

Opaque range_lo range_hi c4 m_lo m_hi sq_hi t_lo ft_lo q_hi film_hi sets_hi.

(** C10, as the code has it: with the four measures between 2**-100 and
    2**100 and the label count between 1 and 2**100, no step of the
    computation divides by zero, overflows or meets a NaN, so the call does
    not end in the [except] branch and returns what the [try] block computed. *)
Theorem calc_no_exception_in_range t r c m l :
  wf_num t = true -> wf_num r = true -> wf_num c = true -> wf_num m = true ->
  wf_num l = true ->
  in_range t = true -> in_range r = true -> in_range c = true -> in_range m = true ->
  num_gt r c = true ->
  num_le (Int 1) l = true -> num_le l (Float range_hi) = true ->
  takes_except (Some t) (Some r) (Some c) (Some m) (Some l) = false /\
  exists v, calc_body t r c m l = Ok v /\
            calc_labels_per_roll (Some t) (Some r) (Some c) (Some m) (Some l) = v.
Proof.
  intros Wt Wr Wc Wm Wl Rt Rr Rc Rm Prc Pl Ul.
  pose proof range_lo_pos as Plo.
  destruct closed_range_lo as (Glo & Flo & _). destruct closed_range_hi as (Ghi & Fhi & _).
  destruct (in_range_ext t Wt Rt) as (vt & Et & Lt & Ut).
  destruct (in_range_ext r Wr Rr) as (vr & Er & Lr & Ur).
  destruct (in_range_ext c Wc Rc) as (vc & Ec & Lc & Uc).
  destruct (in_range_ext m Wm Rm) as (vm & Em & Lm & Um).
  assert (0 < vt)%Q as Pt by lra. assert (0 < vr)%Q as Pr by lra.
  assert (0 < vc)%Q as Pc by lra. assert (0 < vm)%Q as Pm by lra.
  assert (forall v, (0 < v)%Q -> ~ ext_le (Fin v) (Fin 0)) as NP by (intros v P L; cbn in L; lra).
  destruct (truediv_const_ok r _ _ _ vr range_hi Wr int_to_float_100 V_100 Er Pr Ghi Fhi Ur) as [a Ha].
  destruct (truediv_const_ok c _ _ _ vc range_hi Wc int_to_float_100 V_100 Ec Pc Ghi Fhi Uc) as [ca Hca].
  destruct (truediv_const_ok t _ _ _ vt range_hi Wt int_to_float_1000 V_1000 Et Pt Ghi Fhi Ut) as [tm Htm].
  destruct (truediv_const_ok m _ _ _ vm range_hi Wm int_to_float_100 V_100 Em Pm Ghi Fhi Um) as [mm Hmm].
  pose proof (truediv_const_good r _ _ _ a _ Wr int_to_float_100 V_100 Er (NP _ Pr) Ha) as Ga.
  pose proof (truediv_const_good c _ _ _ ca _ Wc int_to_float_100 V_100 Ec (NP _ Pc) Hca) as Gca.
  pose proof (truediv_const_good t _ _ _ tm _ Wt int_to_float_1000 V_1000 Et (NP _ Pt) Htm) as Gtm.
  pose proof (truediv_const_good m _ _ _ mm _ Wm int_to_float_100 V_100 Em (NP _ Pm) Hmm) as Gmm.
  (* bounds of the four quotients *)
  assert (V a <= V m_hi)%Q as Ua.
  { apply (truediv_const_mono r (Float range_hi) _ _ _ a m_hi (Fin vr) (Fin (V range_hi))
             Wr wf_hi int_to_float_100 V_100 Er num_ext_hi (NP _ Pr) Ur Ha truediv_hi_100). }
  assert (V ca <= V a)%Q as Lca.
  { destruct (num_gt_ext r c Wr Wc Prc) as (qr & qc & Er' & Ec' & L & _).
    assert (qr = Fin vr) as -> by (rewrite Er in Er'; injection Er'; auto).
    assert (qc = Fin vc) as -> by (rewrite Ec in Ec'; injection Ec'; auto).
    apply (truediv_const_mono c r _ _ _ ca a (Fin vc) (Fin vr)
             Wc Wr int_to_float_100 V_100 Ec Er (NP _ Pc) L Hca Ha). }
  assert (V t_lo <= V tm)%Q as Ltm.
  { apply (truediv_const_mono (Float range_lo) t _ _ _ t_lo tm (Fin (V range_lo)) (Fin vt)
             wf_lo Wt int_to_float_1000 V_1000 num_ext_lo Et (NP _ Plo) Lt truediv_lo_1000 Htm). }
  assert (V m_lo <= V mm)%Q as Lmm.
  { apply (truediv_const_mono (Float range_lo) m _ _ _ m_lo mm (Fin (V range_lo)) (Fin vm)
             wf_lo Wm int_to_float_100 V_100 num_ext_lo Em (NP _ Plo) Lm truediv_lo_100 Hmm). }
  destruct closed_c4 as (G4 & F4 & Z4). destruct closed_m_lo as (Gmlo & Fmlo & Zmlo).
  destruct closed_m_hi as (Gmhi & Fmhi & Zmhi). destruct closed_sq_hi as (Gsq & Fsq & Zsq).
  destruct closed_t_lo as (Gtlo & Ftlo & Ztlo). destruct closed_ft_lo as (Gftlo & Fftlo & Zftlo).
  destruct closed_q_hi as (Gqhi & Fqhi & Zqhi). destruct closed_film_hi as (Gfhi & Ffhi & Zfhi).
  destruct closed_sets_hi as (Gshi & Fshi & Zshi).
  pose proof (good_bounds _ Ga) as [A0 _]. pose proof (good_bounds _ Gca) as [CA0 _].
  (* the squares *)
  pose proof (sq_not_nan a Ga) as Naa. pose proof (sq_not_nan ca Gca) as Ncc.
  pose proof (sq_not_nan m_hi Gmhi) as Nhh.
  pose proof (mul_good a a Ga Ga Naa) as Gaa.
  pose proof (mul_good ca ca Gca Gca Ncc) as Gcc.
  assert (V (F64.mul a a) <= V sq_hi)%Q as Uaa.
  { rewrite sq_hi_eq. apply mul_mono; assumption. }
  assert (V (F64.mul ca ca) <= V (F64.mul a a))%Q as Lcc
    by (apply mul_mono; assumption).
  pose proof (le_fin _ sq_hi Gaa Gsq Fsq Uaa) as Faa.
  assert (fin (F64.mul ca ca)) as Fcc.
  { apply (le_fin _ sq_hi); try assumption. lra. }
  (* the divisor 4 * thickness_m *)
  pose proof (mul_fin_not_nan c4 tm G4 F4 Z4 Gtm) as Nft.
  pose proof (mul_good c4 tm G4 Gtm Nft) as Gft.
  assert (V ft_lo <= V (F64.mul c4 tm))%Q as Lft.
  { rewrite ft_lo_eq. apply mul_mono; try assumption; try apply Qle_refl.
    apply mul_fin_not_nan; assumption. }
  assert (F64.is_zero (F64.mul c4 tm) = false) as Zft.
  { apply pos_not_zero; [assumption|]. pose proof (good_nonzero _ Gftlo Zftlo). lra. }
  assert (F64.is_zero mm = false) as Zmm.
  { apply pos_not_zero; [assumption|]. pose proof (good_nonzero _ Gmlo Zmlo). lra. }
  (* the difference, the two quotients and the product *)
  set (d := F64.sub (F64.mul a a) (F64.mul ca ca)).
  pose proof (sub_good _ _ Gaa Gcc Fcc Lcc) as Gd. fold d in Gd.
  assert (V d <= V sq_hi)%Q as Ud.
  { rewrite <- sub_sq_hi_zero. apply sub_mono; try assumption; try exact I; try apply good_zero.
    apply (good_bounds _ Gcc). }
  pose proof (le_fin _ sq_hi Gd Gsq Fsq Ud) as Fd.
  set (q := F64.div d (F64.mul c4 tm)).
  pose proof (div_fin_not_nan d _ Gd Fd Gft Zft) as Nq. fold q in Nq.
  pose proof (div_good d _ Gd Gft Zft Nq) as Gq. fold q in Gq.
  assert (V q <= V q_hi)%Q as Uq.
  { rewrite q_hi_eq. apply div_mono; try assumption. apply div_fin_not_nan; assumption. }
  pose proof (le_fin _ q_hi Gq Gqhi Fqhi Uq) as Fq.
  set (f := F64.mul F64.pi q).
  pose proof (mul_fin_not_nan F64.pi q good_pi I eq_refl Gq) as Nf. fold f in Nf.
  pose proof (mul_good F64.pi q good_pi Gq Nf) as Gf. fold f in Gf.
  assert (V f <= V film_hi)%Q as Uf.
  { rewrite film_hi_eq. apply mul_mono; try assumption; try apply good_pi; try apply Qle_refl.
    apply mul_fin_not_nan; [apply good_pi | exact I | reflexivity | assumption]. }
  pose proof (le_fin _ film_hi Gf Gfhi Ffhi Uf) as Ff.
  pose proof (div_fin_not_nan f mm Gf Ff Gmm Zmm) as Ns.
  pose proof (div_good f mm Gf Gmm Zmm Ns) as Gs.
  assert (V (F64.div f mm) <= V sets_hi)%Q as Us.
  { rewrite sets_hi_eq. apply div_mono; try assumption. apply div_fin_not_nan; assumption. }
  assert (fin (sets_of a (F64.mul ca ca) (F64.mul c4 tm) mm)) as Fs.
  { unfold sets_of. fold d. fold q. fold f. exact (le_fin _ sets_hi Gs Gshi Fshi Us). }
  destruct (py_int_ok l Wl Pl Ul) as [lps Hl].
  pose proof (calc_body_forward t r c m l a ca tm mm lps Ha (fin_not_inf _ Faa)
                Hca (fin_not_inf _ Fcc) Htm Zft Hmm Zmm Fs Hl) as H.
  pose proof (pos_ext_not_le0 t vt Wt Et Pt) as G1.
  pose proof (pos_ext_not_le0 r vr Wr Er Pr) as G2.
  pose proof (pos_ext_not_le0 c vc Wc Ec Pc) as G3.
  pose proof (pos_ext_not_le0 m vm Wm Em Pm) as G4'.
  pose proof (ge1_not_le0 l Wl Pl) as G5.
  pose proof (num_gt_le _ _ Prc) as G6.
  split.
  - unfold takes_except. rewrite H. apply andb_false_r.
  - eexists. split; [exact H|].
    rewrite (calc_unguarded t r c m l) by assumption. rewrite H. reflexivity.
Qed.

(** ** Statistics as the specification words them *)

Lemma gt0_spec_positive v : num_gt (Float v) (Int 0) = spec_positive v.
Proof.
  unfold num_gt. cbn [num_compare].
  destruct v as [s|s| |s m e]; cbn [compare_Z_float option_map CompOpp spec_positive].
  - reflexivity.
  - destruct s; reflexivity.
  - reflexivity.
  - destruct e as [|p|p].
    + destruct s; reflexivity.
    + assert (0 < 2 ^ Z.pos p) by (apply Z.pow_pos_nonneg; lia).
      destruct s.
      * assert ((0 ?= Z.neg m * 2 ^ Z.pos p) = Gt) as -> by (apply Z.compare_gt_iff; nia).
        reflexivity.
      * assert ((0 ?= Z.pos m * 2 ^ Z.pos p) = Lt) as -> by (apply Z.compare_lt_iff; nia).
        reflexivity.
    + destruct s; reflexivity.
Qed.

Lemma filter_positive inputs :
  filter (fun v => num_gt (Float v) (Int 0)) inputs = filter spec_positive inputs.
Proof. apply filter_ext. intros v. apply gt0_spec_positive. Qed.

Lemma int_to_float_count n :
  1 <= n <= 9 -> int_to_float n = Ok (F64.of_Z n) /\ F64.is_zero (F64.of_Z n) = false.
Proof.
  intros H.
  assert (n = 1 \/ n = 2 \/ n = 3 \/ n = 4 \/ n = 5 \/ n = 6 \/ n = 7 \/ n = 8 \/ n = 9)
    as C by lia.
  repeat (destruct C as [->|C]; [split; reflexivity|]). subst. split; reflexivity.
Qed.

Lemma compute_stats_spec stdev inputs :
  (List.length inputs <= 9)%nat ->
  compute_stats stdev inputs =
  Ok (spec_mean (filter spec_positive inputs),
      spec_stdev stdev (filter spec_positive inputs)).
Proof.
  intros Hlen. unfold compute_stats. rewrite filter_positive.
  pose proof (filter_length_le spec_positive inputs) as Hf.
  destruct (filter spec_positive inputs) as [|x xs] eqn:E; [reflexivity|].
  set (vals := x :: xs) in *.
  assert (1 <= Z.of_nat (List.length vals) <= 9) as Hn by (cbn [vals List.length] in *; lia).
  destruct (int_to_float_count _ Hn) as [Hc Hz].
  cbn [truediv]. rewrite Hc. cbn [bind]. unfold float_div. rewrite Hz. cbn [bind].
  unfold spec_mean, spec_stdev, vals. fold vals.
  f_equal. f_equal.
  destruct xs as [|y ys]; cbn [vals List.length]; [reflexivity|].
  assert ((1 <? Z.of_nat (S (S (List.length ys)))) = true) as -> by (apply Z.ltb_lt; lia).
  reflexivity.
Qed.

(** ** Keyed tables *)

Section KeyedFacts.

Context {row : Type} (pumbun : row -> cell).
Variable selected : string.
Variable new_row : row.
Hypothesis new_row_key : matches pumbun selected new_row = true.








End KeyedFacts.







(** ** The catalog *)

Lemma cell_eqb_eq a b : cell_eqb a b = true <-> a = b.
Proof.
  destruct a, b; cbn [cell_eqb]; try (split; [discriminate | congruence]).
  - rewrite String.eqb_eq. split; congruence.
  - rewrite Z.eqb_eq. split; congruence.
  - split; reflexivity.
Qed.

Lemma cell_eqb_refl a : cell_eqb a a = true.
Proof. now apply cell_eqb_eq. Qed.

Lemma cell_eqb_sym a b : cell_eqb a b = cell_eqb b a.
Proof.
  destruct (cell_eqb a b) eqn:E.
  - apply cell_eqb_eq in E. subst. symmetry. apply cell_eqb_refl.
  - destruct (cell_eqb b a) eqn:E'; [|reflexivity].
    apply cell_eqb_eq in E'. subst. now rewrite cell_eqb_refl in E.
Qed.

Lemma keep_first_In i rs : forall seen r,
  In r (keep_first i seen rs) <->
  existsb (cell_eqb (cell_at i r)) seen = false /\
  find (fun x => cell_eqb (cell_at i x) (cell_at i r)) rs = Some r.
Proof.
  induction rs as [|x rest IH]; intros seen r; cbn [keep_first find].
  - split; [contradiction | intros [_ H]; discriminate].
  - destruct (existsb (cell_eqb (cell_at i x)) seen) eqn:Ex.
    + rewrite IH. destruct (cell_eqb (cell_at i x) (cell_at i r)) eqn:Ek; [|reflexivity].
      apply cell_eqb_eq in Ek. rewrite <- Ek, Ex.
      split; intros [H _]; discriminate.
    + cbn [In]. rewrite IH. cbn [existsb].
      destruct (cell_eqb (cell_at i x) (cell_at i r)) eqn:Ek.
      * rewrite cell_eqb_sym, Ek. cbn [orb]. split.
        -- intros [<-|[H _]]; [|discriminate]. split; [assumption | reflexivity].
        -- intros [_ H]. left. congruence.
      * rewrite cell_eqb_sym, Ek. cbn [orb]. split.
        -- intros [<-|H]; [|assumption]. now rewrite cell_eqb_refl in Ek.
        -- intros H. now right.
Qed.

Lemma keep_first_NoDup i rs : forall seen,
  NoDup (map (cell_at i) (keep_first i seen rs)) /\
  forall r, In r (keep_first i seen rs) -> ~ In (cell_at i r) seen.
Proof.
  induction rs as [|x rest IH]; intros seen; cbn [keep_first].
  - split; [constructor | contradiction].
  - destruct (existsb (cell_eqb (cell_at i x)) seen) eqn:Ex; [apply IH|].
    destruct (IH (cell_at i x :: seen)) as [ND NI]. split.
    + cbn [map]. constructor; [|assumption].
      intros Hin. apply in_map_iff in Hin. destruct Hin as (r & Er & Hr).
      apply (NI r Hr). left. now symmetry.
    + intros r [<-|Hr].
      * intros Hin. assert (existsb (cell_eqb (cell_at i x)) seen = true); [|congruence].
        apply existsb_exists. exists (cell_at i x). split; [assumption | apply cell_eqb_refl].
      * intros Hin. apply (NI r Hr). now right.
Qed.

Lemma find_filter {A} (f g : A -> bool) l :
  (forall x, f x = true -> g x = true) -> find f (filter g l) = find f l.
Proof.
  intros H. induction l as [|x l IH]; [reflexivity|]. cbn [filter find].
  destruct (g x) eqn:Eg; cbn [find].
  - now rewrite IH.
  - destruct (f x) eqn:Ef; [|assumption]. rewrite (H x Ef) in Eg. discriminate.
Qed.

Lemma find_map {A B} (f : B -> bool) (p : A -> B) l :
  find f (map p l) = option_map p (find (fun x => f (p x)) l).
Proof.
  induction l as [|x l IH]; [reflexivity|]. cbn [map find].
  destruct (f (p x)); [reflexivity | exact IH].
Qed.

Lemma index_of_bom_0 : forall c, index_of col_pumbun [col_pumbun; c] = Some 0%nat.
Proof. reflexivity. Qed.

Lemma keep_first_pairs i j df r :
  In r (keep_first 0 [] (filter (fun r => negb (isna (cell_at 0 r))) (bom_pairs i j df))) ->
  exists x, In x (rows df) /\ r = [cell_at i x; cell_at j x] /\ isna (cell_at i x) = false.
Proof.
  intros Hr. apply keep_first_In in Hr. destruct Hr as [_ Hf].
  apply find_some in Hf. destruct Hf as [Hin _]. apply filter_In in Hin.
  destruct Hin as [Hin Hna]. apply in_map_iff in Hin. destruct Hin as (x & <- & Hx).
  exists x. repeat split; trivial. cbn [cell_at nth] in Hna. now apply negb_true_iff in Hna.
Qed.

Lemma select2_ok c1 c2 df i j :
  index_of c1 (columns df) = Some i ->
  index_of c2 (columns df) = Some j ->
  select2 c1 c2 df =
  Ok {| columns := [c1; c2]; rows := map (fun r => [cell_at i r; cell_at j r]) (rows df) |}.
Proof. intros Hi Hj. unfold select2. now rewrite Hi, Hj. Qed.

Lemma load_bom_sheet df i j :
  index_of col_pumbun (columns df) = Some i ->
  index_of col_pummyeong_1 (columns df) = Some j ->
  load_bom (Sheet df) =
  (Ok {| columns := [col_pumbun; col_pummyeong];
         rows := keep_first 0 [] (filter (fun r => negb (isna (cell_at 0 r)))
                                         (bom_pairs i j df)) |}, []).
Proof.
  intros Hi Hj. cbn [load_bom]. unfold has_column. rewrite Hi, Hj. cbn [negb orb].
  rewrite (select2_ok _ _ df i j Hi Hj). cbn [bind]. fold (bom_pairs i j df).
  unfold dropna. cbn [columns rows]. rewrite index_of_bom_0. cbn [bind].
  unfold drop_duplicates. cbn [columns rows]. rewrite index_of_bom_0. cbn [bind].
  set (kept := keep_first 0 [] (filter (fun r => negb (isna (cell_at 0 r))) (bom_pairs i j df))).
  assert (map (fun r => [cell_at 0 r; cell_at 1 r]) kept = kept) as Eid.
  { rewrite <- (map_id kept) at 2. apply map_ext_in. intros r Hr.
    destruct (keep_first_pairs i j df r Hr) as (x & _ & -> & _). reflexivity. }
  rewrite (select2_ok _ _ _ 0%nat 1%nat); [|reflexivity|reflexivity].
  cbn [rename columns rows]. now rewrite Eid.
Qed.

(** C5: from a sheet with the two required columns, the catalog holds, for
    each part number that is not missing, exactly one row; its name is the cell
    of column 품명.1 in the first row of the sheet with that part number. *)
Theorem load_bom_catalog df i j :
  index_of col_pumbun (columns df) = Some i ->
  index_of col_pummyeong_1 (columns df) = Some j ->
  exists bom,
    load_bom (Sheet df) = (Ok bom, []) /\
    columns bom = [col_pumbun; col_pummyeong] /\
    NoDup (map (cell_at 0) (rows bom)) /\
    (forall r, In r (rows bom) -> exists pn nm, r = [pn; nm]) /\
    forall pn nm,
      In [pn; nm] (rows bom) <->
      pn <> NaN /\
      exists r, find (fun x => cell_eqb (cell_at i x) pn) (rows df) = Some r /\
                nm = cell_at j r.
Proof.
  intros Hi Hj. eexists. split; [apply (load_bom_sheet df i j Hi Hj)|].
  cbn [columns rows]. split; [reflexivity|]. split; [apply keep_first_NoDup|].
  split.
  { intros r Hr. destruct (keep_first_pairs i j df r Hr) as (x & _ & -> & _). eauto. }
  intros pn nm. rewrite keep_first_In. cbn [existsb cell_at nth].
  split.
  - intros [_ Hf].
    assert (pn <> NaN) as Hpn.
    { apply find_some in Hf. destruct Hf as [Hin _]. apply filter_In in Hin.
      destruct Hin as [_ Hna]. cbn [cell_at nth] in Hna. intros ->. discriminate. }
    split; [assumption|].
    rewrite find_filter in Hf.
    2:{ intros x Hx. apply cell_eqb_eq in Hx. rewrite Hx. destruct pn; trivial. congruence. }
    unfold bom_pairs in Hf. rewrite find_map in Hf. cbn [cell_at nth] in Hf.
    destruct (find (fun x => cell_eqb (cell_at i x) pn) (rows df)) as [r|]; [|discriminate].
    exists r. split; [reflexivity|]. cbn [option_map] in Hf. congruence.
  - intros (Hpn & r & Hf & ->). split; [reflexivity|].
    rewrite find_filter.
    2:{ intros x Hx. apply cell_eqb_eq in Hx. rewrite Hx. destruct pn; trivial. congruence. }
    unfold bom_pairs. rewrite find_map. cbn [cell_at nth]. rewrite Hf. cbn [option_map].
    apply find_some in Hf. destruct Hf as [_ Hk]. apply cell_eqb_eq in Hk. now rewrite Hk.
Qed.

Lemma load_bom_catalog_witness :
  exists bom,
    load_bom (Sheet ex_sheet) = (Ok bom, []) /\
    columns bom = [col_pumbun; col_pummyeong] /\
    NoDup (map (cell_at 0) (rows bom)) /\
    (forall r, In r (rows bom) -> exists pn nm, r = [pn; nm]) /\
    forall pn nm,
      In [pn; nm] (rows bom) <->
      pn <> NaN /\
      exists r, find (fun x => cell_eqb (cell_at 1 x) pn) (rows ex_sheet) = Some r /\
                nm = cell_at 2 r.
Proof. apply (load_bom_catalog ex_sheet 1%nat 2%nat); reflexivity. Defined.

Lemma has_column_index c df : has_column c df = true -> exists i, index_of c (columns df) = Some i.
Proof. unfold has_column. destruct (index_of c (columns df)) as [i|]; [eauto | discriminate]. Qed.

(** C6: on a file that is absent, unreadable or without a required column,
    [load_bom] shows one diagnostic and returns the empty catalog with the
    columns 품번 and 품명; and on no file at all does it end in an exception. *)
Theorem load_bom_failure file :
  (exists bom, fst (load_bom file) = Ok bom) /\
  (bom_unusable file = true ->
   exists d, load_bom file = (Ok empty_bom, [d]) /\
             columns empty_bom = [col_pumbun; col_pummyeong] /\ rows empty_bom = []).
Proof.
  split.
  - destruct file as [|e|df]; try (eexists; reflexivity).
    destruct (has_column col_pumbun df) eqn:H1; [|eexists; cbn [load_bom]; rewrite H1; reflexivity].
    destruct (has_column col_pummyeong_1 df) eqn:H2;
      [|eexists; cbn [load_bom]; rewrite H1, H2; reflexivity].
    destruct (has_column_index _ _ H1) as [i Hi]. destruct (has_column_index _ _ H2) as [j Hj].
    rewrite (load_bom_sheet df i j Hi Hj). eexists. reflexivity.
  - intros U. destruct file as [|e|df]; cbn [load_bom bom_unusable] in *.
    + eexists. repeat split.
    + eexists. repeat split.
    + rewrite U. eexists. repeat split.
Qed.

Lemma load_bom_failure_witness :
  exists d, load_bom (Sheet {| columns := [col_pumbun; col_pummyeong]; rows := [[Str "A1"; Str "film"]] |})
            = (Ok empty_bom, [d]) /\
            columns empty_bom = [col_pumbun; col_pummyeong] /\ rows empty_bom = [].
Proof.
  apply (proj2 (load_bom_failure
                  (Sheet {| columns := [col_pumbun; col_pummyeong]; rows := [[Str "A1"; Str "film"]] |}))).
  reflexivity.
Defined.



Lemma calc_no_exception_in_range_witness :
  takes_except (Some ex_thickness) (Some ex_roll) (Some ex_core) (Some ex_mark) (Some ex_lps) = false /\
  exists v, calc_body ex_thickness ex_roll ex_core ex_mark ex_lps = Ok v /\
            calc_labels_per_roll (Some ex_thickness) (Some ex_roll) (Some ex_core)
              (Some ex_mark) (Some ex_lps) = v.
Proof.
  apply (calc_no_exception_in_range ex_thickness ex_roll ex_core ex_mark ex_lps);
    vm_compute; reflexivity.
Defined.

(** C10 as stated fails: past the guards, a roll diameter of 1e200 ends in
    [OverflowError] and a thickness of 5e-324 in [ZeroDivisionError]. *)
Lemma calc_no_exception_in_range_counterexample :
  guards_pass ex_thickness ex_huge ex_core ex_mark ex_lps = true /\
  calc_body ex_thickness ex_huge ex_core ex_mark ex_lps = Raise OverflowError /\
  takes_except (Some ex_thickness) (Some ex_huge) (Some ex_core) (Some ex_mark) (Some ex_lps) = true /\
  guards_pass ex_tiny ex_roll ex_core ex_mark ex_lps = true /\
  calc_body ex_tiny ex_roll ex_core ex_mark ex_lps = Raise ZeroDivisionError /\
  takes_except (Some ex_tiny) (Some ex_roll) (Some ex_core) (Some ex_mark) (Some ex_lps) = true.
Proof. repeat split; vm_compute; reflexivity. Qed.

(** * Further properties of the script *)

(** *** The label count of a set *)

Lemma calc_body_labels t r c m l :
  calc_body t r c m l =
  (s <- calc_body t r c m (Int 1) ;; n <- py_int l ;; Ok (s * n)).
Proof.
  unfold calc_body.
  destruct (truediv r (Int 100)) as [a|e]; cbn [bind]; [|reflexivity].
  destruct (pow2 a) as [aa|e]; cbn [bind]; [|reflexivity].
  destruct (truediv c (Int 100)) as [ca|e]; cbn [bind]; [|reflexivity].
  destruct (pow2 ca) as [cc|e]; cbn [bind]; [|reflexivity].
  destruct (truediv t (Int 1000)) as [tm|e]; cbn [bind]; [|reflexivity].
  destruct (int_mul_float 4 tm) as [ft|e]; cbn [bind]; [|reflexivity].
  destruct (float_div (F64.sub aa cc) ft) as [q|e]; cbn [bind]; [|reflexivity].
  destruct (truediv m (Int 100)) as [mm|e]; cbn [bind]; [|reflexivity].
  destruct (float_div (F64.mul F64.pi q) mm) as [s|e]; cbn [bind]; [|reflexivity].
  destruct (float_to_int s) as [n|e]; cbn [bind py_int]; [|reflexivity].
  rewrite Z.mul_1_r. reflexivity.
Qed.

(** The result is the result for one label per set, times the whole number of
    labels of a set: a fraction of a label is dropped before the product. *)
Theorem calc_scales_with_labels (t r c m : option num) (l : num) (n : Z) :
  num_le l (Int 0) = false -> py_int l = Ok n ->
  calc_labels_per_roll t r c m (Some l) =
  calc_labels_per_roll t r c m (Some (Int 1)) * n.
Proof.
  intros G Hn. unfold calc_labels_per_roll. cbn [none_or_le0]. rewrite G.
  change (num_le (Int 1) (Int 0)) with false.
  destruct (none_or_le0 t || none_or_le0 r || none_or_le0 c || none_or_le0 m || false);
    [reflexivity|].
  destruct t as [t|], r as [r|], c as [c|], m as [m|]; try reflexivity.
  destruct (num_le r c); [reflexivity|].
  rewrite (calc_body_labels t r c m l).
  destruct (calc_body t r c m (Int 1)) as [s|e]; cbn [bind try_except]; [|reflexivity].
  rewrite Hn. reflexivity.
Qed.

Lemma calc_scales_with_labels_witness :
  calc_labels_per_roll (Some ex_thickness) (Some ex_roll) (Some ex_core) (Some ex_mark)
    (Some (Float (F64.dec 59 1))) =
  calc_labels_per_roll (Some ex_thickness) (Some ex_roll) (Some ex_core) (Some ex_mark)
    (Some (Int 1)) * 5.
Proof.
  apply (calc_scales_with_labels (Some ex_thickness) (Some ex_roll) (Some ex_core) (Some ex_mark)
           (Float (F64.dec 59 1)) 5); vm_compute; reflexivity.
Defined.

(** *** Arguments that are not finite *)

Lemma special_div_const x c mc ec a :
  int_to_float c = Ok (S754_finite false mc ec) ->
  special x = true -> truediv (Float x) (Int c) = Ok a -> special a = true.
Proof.
  intros Hc Sx H. cbn [truediv] in H. rewrite Hc in H. cbn [bind] in H.
  unfold float_div in H. cbn [F64.is_zero] in H. injection H as <-.
  destruct x as [s|s| |s mx ex]; try discriminate; reflexivity.
Qed.

Lemma special_sq a : special a = true -> special (F64.mul a a) = true.
Proof. destruct a as [s|s| |s ma ea]; try discriminate; reflexivity. Qed.

Lemma special_sub_l a b : special a = true -> special (F64.sub a b) = true.
Proof.
  destruct a as [s|s| |s ma ea]; try discriminate; intros _.
  - destruct b as [s'|s'| |s' mb eb]; try reflexivity.
    destruct s, s'; reflexivity.
  - destruct b; reflexivity.
Qed.

Lemma special_sub_r a b : special b = true -> special (F64.sub a b) = true.
Proof.
  destruct b as [s|s| |s mb eb]; try discriminate; intros _.
  - destruct a as [s'|s'| |s' ma ea]; try reflexivity.
    destruct s, s'; reflexivity.
  - destruct a; reflexivity.
Qed.

Lemma dead_special a : special a = true -> dead a = true.
Proof. destruct a; try discriminate; reflexivity. Qed.

Lemma dead_div_l a b : dead a = true -> dead (F64.div a b) = true.
Proof.
  destruct a as [s|s| |s ma ea]; try discriminate; intros _;
    destruct b as [s'|s'| |s' mb eb]; reflexivity.
Qed.

Lemma dead_div_special a b : special b = true -> dead (F64.div a b) = true.
Proof.
  destruct b as [s|s| |s mb eb]; try discriminate; intros _;
    destruct a as [s'|s'| |s' ma ea]; reflexivity.
Qed.

Lemma dead_mul_pi a : dead a = true -> dead (F64.mul F64.pi a) = true.
Proof. destruct a as [s|s| |s ma ea]; try discriminate; reflexivity. Qed.

Lemma dead_mul_4 ft a :
  int_mul_float 4 a = Ok ft -> special a = true -> special ft = true.
Proof.
  unfold int_mul_float. rewrite int_to_float_4. cbn [bind]. intros H S. injection H as <-.
  destruct a as [s|s| |s ma ea]; try discriminate; reflexivity.
Qed.

Lemma dead_trunc a : dead a = true -> F64.trunc a = 0.
Proof. destruct a; try discriminate; reflexivity. Qed.

Lemma calc_body_dead t r c m l v :
  special_num t = true \/ special_num r = true \/ special_num c = true \/ special_num m = true ->
  calc_body t r c m l = Ok v -> v = 0.
Proof.
  intros S H.
  destruct (calc_body_inv _ _ _ _ _ _ H)
    as (a & ca & tm & ft & mm & lps & Ha & _ & Hca & _ & Htm & Hft & _ & Hmm & _ & _ & _ & ->).
  assert (dead (sets_of a (F64.mul ca ca) ft mm) = true) as D.
  { unfold sets_of. destruct S as [S|[S|[S|S]]].
    - destruct t as [n|x]; [discriminate|]. cbn [special_num] in S.
      apply dead_div_l, dead_mul_pi, dead_div_special.
      apply (dead_mul_4 ft tm Hft). exact (special_div_const x _ _ _ tm int_to_float_1000 S Htm).
    - destruct r as [n|x]; [discriminate|]. cbn [special_num] in S.
      apply dead_div_l, dead_mul_pi, dead_div_l, dead_special, special_sub_l, special_sq.
      exact (special_div_const x _ _ _ a int_to_float_100 S Ha).
    - destruct c as [n|x]; [discriminate|]. cbn [special_num] in S.
      apply dead_div_l, dead_mul_pi, dead_div_l, dead_special, special_sub_r, special_sq.
      exact (special_div_const x _ _ _ ca int_to_float_100 S Hca).
    - destruct m as [n|x]; [discriminate|]. cbn [special_num] in S.
      apply dead_div_special. exact (special_div_const x _ _ _ mm int_to_float_100 S Hmm). }
  rewrite (dead_trunc _ D). reflexivity.
Qed.

(** A thickness, diameter or mark length that is NaN or infinite gives 0:
    such a value passes the guards when it is NaN or +inf, and the computation
    then ends in the [except] branch or in a zero count of sets. *)
Theorem calc_not_finite_is_zero t r c m (l : option num) :
  special_num t = true \/ special_num r = true \/ special_num c = true \/ special_num m = true ->
  calc_labels_per_roll (Some t) (Some r) (Some c) (Some m) l = 0.
Proof.
  intros S. unfold calc_labels_per_roll.
  destruct (none_or_le0 (Some t) || none_or_le0 (Some r) || none_or_le0 (Some c)
            || none_or_le0 (Some m) || none_or_le0 l); [reflexivity|].
  destruct l as [l|]; [|reflexivity].
  destruct (num_le r c); [reflexivity|].
  destruct (calc_body t r c m l) as [v|e] eqn:H; [|reflexivity].
  cbn [try_except]. exact (calc_body_dead t r c m l v S H).
Qed.

Lemma calc_not_finite_is_zero_witness :
  calc_labels_per_roll (Some ex_thickness) (Some (Float S754_nan)) (Some ex_core)
    (Some ex_mark) (Some ex_lps) = 0 /\
  calc_labels_per_roll (Some (Float (S754_infinity false))) (Some ex_roll) (Some ex_core)
    (Some ex_mark) (Some ex_lps) = 0.
Proof.
  split; apply calc_not_finite_is_zero.
  - right. left. reflexivity.
  - left. reflexivity.
Defined.

(** *** The yield against each measure *)







(** *** Saves and the rest of the table *)

Section KeyedOther.

Context {row : Type} (pumbun : row -> cell).
Variables selected other : string.
Variable new_row : row.
Hypothesis new_row_key : matches pumbun selected new_row = true.
Hypothesis other_key : other <> selected.



End KeyedOther.






(** *** Saves of the thickness table *)

Lemma save_thick_nine stdev selected pummyeong vendor inputs st :
  List.length inputs = 9%nat ->
  save_thick stdev selected pummyeong vendor inputs st =
  Ok (save_thickness
        (upsert th_pumbun selected
           {| th_pumbun := Str selected; th_pummyeong := pummyeong;
              th_vendor := vendor_to_store vendor (select_rows th_pumbun selected (thick_df st));
              th_measures := inputs;
              th_mean := spec_mean (filter spec_positive inputs);
              th_stdev := spec_stdev stdev (filter spec_positive inputs) |}
           (thick_df st)) st).
Proof.
  intros Hlen. unfold save_thick.
  rewrite (compute_stats_spec stdev inputs) by lia. reflexivity.
Qed.



(** For a part number without a record the save appends one row, with the
    vendor as typed, blank or not, and changes no other row. *)
Theorem save_thick_new_part stdev selected pummyeong vendor inputs st :
  List.length inputs = 9%nat ->
  select_rows th_pumbun selected (thick_df st) = [] ->
  exists r,
    save_thick stdev selected pummyeong vendor inputs st =
      Ok (save_thickness (thick_df st ++ [r]) st) /\
    th_pumbun r = Str selected /\ th_vendor r = Str vendor /\ th_measures r = inputs.
Proof.
  intros Hlen Hex. rewrite (save_thick_nine _ _ _ _ _ _ Hlen).
  unfold upsert. rewrite Hex. eexists. split; [reflexivity|]. repeat split.
Qed.

Lemma save_thick_new_part_witness :
  exists r,
    save_thick (fun _ => F64.dec 36 4) "C3" (Str "film") "IJ Pack" ex_inputs ex_thick_state =
      Ok (save_thickness (thick_df ex_thick_state ++ [r]) ex_thick_state) /\
    th_pumbun r = Str "C3" /\ th_vendor r = Str "IJ Pack" /\ th_measures r = ex_inputs.
Proof.
  apply (save_thick_new_part (fun _ => F64.dec 36 4) "C3" (Str "film") "IJ Pack"
           ex_inputs ex_thick_state); reflexivity.
Defined.





(** *** One value, one binary64 number *)

Lemma finite_le_inj m1 e1 m2 e2 :
  F64.valid (S754_finite false m1 e1) = true -> F64.valid (S754_finite false m2 e2) = true ->
  e1 <= e2 ->
  (inject_Z (Z.pos m1) * bpow e1 == inject_Z (Z.pos m2) * bpow e2)%Q ->
  m1 = m2 /\ e1 = e2.
Proof.
  intros V1 V2 Le E.
  destruct (valid_finite _ _ _ V1) as [C1 _]. destruct (valid_finite _ _ _ V2) as [C2 _].
  assert (Z.pos m1 = Z.pos m2 * 2 ^ (e2 - e1)) as Em.
  { apply inject_Z_injective. rewrite inject_Z_mult, <- bpow_Z by lia.
    assert (bpow e2 == bpow (e2 - e1) * bpow e1)%Q as B
      by (rewrite <- bpow_add; now replace (e2 - e1 + e1) with e2 by lia).
    rewrite B in E. pose proof (bpow_pos e1) as P.
    apply (Qmult_inj_r _ _ (bpow e1)); [lra|]. rewrite E. ring. }
  assert (Zdigits2 (Z.pos m1) = Zdigits2 (Z.pos m2) + (e2 - e1)) as Ed
    by (rewrite Em; apply Zdigits2_shift; lia).
  assert (e1 = e2) as Ee.
  { rewrite <- C1, <- C2. f_equal. lia. }
  split; [|exact Ee]. subst e2. rewrite Z.sub_diag, Z.mul_1_r in Em. congruence.
Qed.

Lemma good_fin_inj a b : good a -> good b -> fin a -> fin b -> (V a == V b)%Q -> a = b.
Proof.
  intros [Na Va] [Nb Vb] Fa Fb E.
  destruct a as [[]|[]| |[] ma ea]; try contradiction;
    destruct b as [[]|[]| |[] mb eb]; try contradiction; cbn [V cond_Zopp] in E.
  - reflexivity.
  - exfalso. pose proof (bpow_pos eb). assert (0 < inject_Z (Z.pos mb))%Q by reflexivity. nra.
  - exfalso. pose proof (bpow_pos ea). assert (0 < inject_Z (Z.pos ma))%Q by reflexivity. nra.
  - destruct (Z.le_ge_cases ea eb) as [L|L].
    + destruct (finite_le_inj ma ea mb eb Va Vb L E) as [-> ->]. reflexivity.
    + symmetry in E. destruct (finite_le_inj mb eb ma ea Vb Va L E) as [-> ->]. reflexivity.
Qed.

Lemma div_by_one x : good x -> F64.div x (F64.of_Z 1) = x.
Proof.
  intros G. destruct (good_cases _ G) as [->|F]; [reflexivity|].
  destruct x as [s|s| |s m e]; try contradiction.
  - destruct G as [N _]. destruct s; [contradiction | reflexivity].
  - assert (rounds_to (V (S754_finite s m e)) (F64.div (S754_finite s m e) (F64.of_Z 1))) as R.
    { apply (rounds_to_compat (V (S754_finite s m e) / V (F64.of_Z 1))).
      - assert (V (F64.of_Z 1) == 1)%Q as -> by reflexivity. field.
      - apply div_rounds; try apply G; try exact I; [reflexivity | discriminate]. }
    pose proof (rounds_to_self _ F (proj1 G) (proj2 G)) as S.
    pose proof (good_bounds _ G) as [P _].
    pose proof (rounds_to_mono _ _ _ _ R S P (Qle_refl _)) as L1.
    pose proof (rounds_to_mono _ _ _ _ S R P (Qle_refl _)) as L2.
    pose proof (rounds_to_good _ _ R) as Gd.
    apply good_fin_inj; trivial; [|lra].
    apply good_lt_fin; [assumption|]. pose proof (good_fin_lt _ G F). lra.
Qed.

Lemma add_zero_l x : F64.add (F64.of_Z 0) x = match x with S754_zero true => S754_zero false | _ => x end.
Proof. destruct x as [[]|[]| |[] m e]; reflexivity. Qed.

(** *** The statistics block *)

(** Measurements that are not above 0 do not count: two lists of inputs with
    the same values above 0, in the same order, give the same mean and
    deviation. *)
Theorem compute_stats_ignores_blanks stdev xs ys :
  filter spec_positive xs = filter spec_positive ys ->
  compute_stats stdev xs = compute_stats stdev ys.
Proof.
  intros E. unfold compute_stats. rewrite !filter_positive, E. reflexivity.
Qed.

Lemma compute_stats_ignores_blanks_witness :
  compute_stats (fun _ => F64.dec 36 4) ex_inputs =
  compute_stats (fun _ => F64.dec 36 4)
    [F64.of_Z 0; F64.dec 140 3; F64.of_Z 0; F64.dec 135 3; F64.dec 133 3].
Proof. apply compute_stats_ignores_blanks. reflexivity. Defined.

(** With no measurement above 0 the mean and the deviation are both 0.0,
    however many inputs there are. *)
Theorem compute_stats_no_valid stdev inputs :
  (forall v, In v inputs -> spec_positive v = false) ->
  compute_stats stdev inputs = Ok (S754_zero false, S754_zero false).
Proof.
  intros H. unfold compute_stats. rewrite filter_positive.
  assert (filter spec_positive inputs = []) as ->; [|reflexivity].
  induction inputs as [|v l IH]; [reflexivity|]. cbn [filter].
  rewrite (H v (or_introl eq_refl)). apply IH. intros w Hw. apply H. now right.
Qed.

Lemma compute_stats_no_valid_witness :
  compute_stats (fun _ => F64.dec 36 4) (repeat (F64.of_Z 0) 9) =
  Ok (S754_zero false, S754_zero false).
Proof.
  apply compute_stats_no_valid. intros v Hv. apply repeat_spec in Hv. now subst.
Defined.

(** With exactly one measurement above 0 the mean is that measurement, bit
    for bit, and the deviation is 0.0 without a call of [statistics.stdev]. *)
Theorem compute_stats_single stdev inputs x :
  F64.valid x = true ->
  filter spec_positive inputs = [x] ->
  compute_stats stdev inputs = Ok (x, S754_zero false).
Proof.
  intros Vx E. unfold compute_stats. rewrite filter_positive, E.
  assert (spec_positive x = true) as Px.
  { assert (In x (filter spec_positive inputs)) as Hin by (rewrite E; now left).
    apply filter_In in Hin. apply Hin. }
  assert (good x) as G.
  { split; [|exact Vx]. destruct x as [s|[]| |[] m e]; try discriminate; exact I. }
  cbn [List.length Z.of_nat Pos.of_succ_nat truediv].
  change (int_to_float 1) with (Ok (F64.of_Z 1)). cbn [bind].
  unfold float_div. change (F64.is_zero (F64.of_Z 1)) with false. cbn [bind].
  unfold py_sum. cbn [fold_left]. rewrite add_zero_l.
  assert (match x with S754_zero true => S754_zero false | _ => x end = x) as ->
    by (destruct x as [[]|[]| |[] m e]; try discriminate; reflexivity).
  rewrite (div_by_one x G). reflexivity.
Qed.

Lemma compute_stats_single_witness :
  compute_stats (fun _ => F64.dec 36 4)
    [F64.of_Z 0; F64.dec 135 3; F64.of_Z 0; F64.of_Z 0; F64.of_Z 0;
     F64.of_Z 0; F64.of_Z 0; F64.of_Z 0; F64.of_Z 0] =
  Ok (F64.dec 135 3, S754_zero false).
Proof. apply compute_stats_single; reflexivity. Defined.

(** *** The catalog and the name shown for a part number *)




Lemma keep_first_length i rs : forall seen,
  (List.length (keep_first i seen rs) <= List.length rs)%nat.
Proof.
  induction rs as [|x rest IH]; intros seen; cbn [keep_first List.length]; [lia|].
  destruct (existsb (cell_eqb (cell_at i x)) seen); cbn [List.length].
  - specialize (IH seen). lia.
  - specialize (IH (cell_at i x :: seen)). lia.
Qed.



(** The catalog is never longer than the sheet, and each of its rows is the
    pair of cells 품번, 품명.1 of a sheet row whose part number is not
    missing. *)
Theorem load_bom_rows_from_sheet df i j bom :
  index_of col_pumbun (columns df) = Some i ->
  index_of col_pummyeong_1 (columns df) = Some j ->
  load_bom (Sheet df) = (Ok bom, []) ->
  (List.length (rows bom) <= List.length (rows df))%nat /\
  forall r, In r (rows bom) ->
    exists x, In x (rows df) /\ r = [cell_at i x; cell_at j x] /\ isna (cell_at i x) = false.
Proof.
  intros Hi Hj H. rewrite (load_bom_sheet df i j Hi Hj) in H. injection H as <-.
  cbn [rows]. split; [|intros r Hr; now apply (keep_first_pairs i j df)].
  eapply Nat.le_trans; [apply keep_first_length|].
  eapply Nat.le_trans; [apply filter_length_le|].
  unfold bom_pairs. now rewrite length_map.
Qed.

Lemma load_bom_rows_from_sheet_witness :
  let bom := {| columns := [col_pumbun; col_pummyeong];
                rows := [[Str "A1"; Str "film one"]; [Num 77; Str "film two"]] |} in
  (List.length (rows bom) <= List.length (rows ex_sheet))%nat /\
  forall r, In r (rows bom) ->
    exists x, In x (rows ex_sheet) /\ r = [cell_at 1 x; cell_at 2 x] /\ isna (cell_at 1 x) = false.
Proof.
  intros bom. apply (load_bom_rows_from_sheet ex_sheet 1%nat 2%nat bom); reflexivity.
Defined.

(** A sheet whose part numbers are all present and pairwise distinct is
    taken over row by row, in its order. *)
Theorem load_bom_clean_sheet df i j :
  index_of col_pumbun (columns df) = Some i ->
  index_of col_pummyeong_1 (columns df) = Some j ->
  (forall x, In x (rows df) -> isna (cell_at i x) = false) ->
  NoDup (map (cell_at i) (rows df)) ->
  load_bom (Sheet df) =
  (Ok {| columns := [col_pumbun; col_pummyeong];
         rows := map (fun x => [cell_at i x; cell_at j x]) (rows df) |}, []).
Proof.
  intros Hi Hj Hna Hnd. rewrite (load_bom_sheet df i j Hi Hj). do 2 f_equal. f_equal.
  unfold bom_pairs.
  assert (filter (fun r => negb (isna (cell_at 0 r)))
            (map (fun r => [cell_at i r; cell_at j r]) (rows df)) =
          map (fun r => [cell_at i r; cell_at j r]) (rows df)) as ->.
  { apply forallb_filter_id. apply forallb_forall. intros r Hr.
    apply in_map_iff in Hr. destruct Hr as (x & <- & Hx). cbn [cell_at nth].
    now rewrite (Hna x Hx). }
  assert (forall rs seen,
            NoDup (map (cell_at i) rs) ->
            (forall x, In x rs -> ~ In (cell_at i x) seen) ->
            keep_first 0 seen (map (fun r => [cell_at i r; cell_at j r]) rs) =
            map (fun r => [cell_at i r; cell_at j r]) rs) as K.
  { induction rs as [|x rest IH]; intros seen ND NS; [reflexivity|].
    cbn [map keep_first cell_at nth].
    assert (existsb (cell_eqb (cell_at i x)) seen = false) as ->.
    { destruct (existsb (cell_eqb (cell_at i x)) seen) eqn:Ex; [|reflexivity].
      apply existsb_exists in Ex. destruct Ex as (k & Hk & Ek). apply cell_eqb_eq in Ek.
      exfalso. apply (NS x (or_introl eq_refl)). now rewrite Ek. }
    f_equal. cbn [map] in ND. inversion ND as [|? ? Hx ND']. subst.
    apply IH; [assumption|]. intros y Hy [E|Hin].
    - apply Hx. rewrite E. now apply in_map.
    - apply (NS y); [now right | assumption]. }
  apply K; [assumption | intros x _ []].
Qed.

Lemma load_bom_clean_sheet_witness :
  load_bom (Sheet {| columns := [col_pumbun; col_pummyeong_1];
                     rows := [[Str "A1"; Str "film one"]; [Num 77; Str "film two"]] |}) =
  (Ok {| columns := [col_pumbun; col_pummyeong];
         rows := [[Str "A1"; Str "film one"]; [Num 77; Str "film two"]] |}, []).
Proof.
  apply (load_bom_clean_sheet
           {| columns := [col_pumbun; col_pummyeong_1];
              rows := [[Str "A1"; Str "film one"]; [Num 77; Str "film two"]] |} 0%nat 1%nat).
  - reflexivity.
  - reflexivity.
  - intros x [<-|[<-|[]]]; reflexivity.
  - repeat constructor; cbn; intuition discriminate.
Defined.

(** *** Part numbers read as text *)





(** *** No negative yield *)





(** *** Saving twice *)




